(** * Source-map store of the frontend logging API

    A shallow embedding of [pkg/api/frontendlogging/source_maps.go]:
    the location resolver [guessSourceMapLocation], the memoising loader
    [getSourceMap], the frame resolver [resolveSourceLocation] and the
    file-system reader [ReadSourceMapFromFs], followed by the properties
    the specification states about them. *)

From Stdlib Require Import String Ascii ZArith List Bool Lia.
From stdpp Require Import base option gmap strings list.
Import ListNotations.

Local Open Scope string_scope.

(** ** Go strings

    A Go [string] is a sequence of bytes; [String.string] is a sequence of
    [ascii], i.e. of bytes, so the slice [s[n:]] drops the first [n]
    characters. *)

Module Strings.

(** [strings.HasPrefix(s, prefix)]. *)
Definition HasPrefix (s prefix : string) : bool := String.prefix prefix s.

(** The slice expression [s[n:]] (for [n <= len(s)]). *)
Fixpoint slice_from (n : nat) (s : string) : string :=
  match n, s with
  | O, _ => s
  | S n', String _ s' => slice_from n' s'
  | S _, EmptyString => EmptyString
  end.

(** [strings.Split(s, "/")]: the maximal '/'-free pieces of [s]. *)
Fixpoint split_slash (s : string) : list string :=
  match s with
  | EmptyString => [EmptyString]
  | String c s' =>
      if Ascii.eqb c "/" then EmptyString :: split_slash s'
      else match split_slash s' with
           | seg :: segs => String c seg :: segs
           | [] => [String c EmptyString]
           end
  end.

(** [strings.Join(elems, "/")]. *)
Fixpoint join_slash (elems : list string) : string :=
  match elems with
  | [] => EmptyString
  | [e] => e
  | e :: rest => e ++ "/" ++ join_slash rest
  end.

End Strings.

(** ** [path/filepath] on a Unix host

    The repository calls [filepath.Clean] and [filepath.Join] of the Go
    standard library.  They are modelled on path elements: [Clean] drops
    empty and [.] elements, lets [..] cancel the preceding real element,
    drops a [..] that would climb above the root of a rooted path, and keeps
    it at the front of a relative path. *)

Module Filepath.
Import Strings.

Definition rooted (path : string) : bool := HasPrefix path "/".

(** One element of the scan of [Clean]; [out] is the output so far, last
    element first. *)
Definition clean_step (is_rooted : bool) (out : list string) (elem : string)
  : list string :=
  if String.eqb elem "" then out
  else if String.eqb elem "." then out
  else if String.eqb elem ".." then
    match out with
    | top :: below =>
        if String.eqb top ".." then
          (if is_rooted then out else elem :: out)
        else below
    | [] => if is_rooted then [] else [elem]
    end
  else elem :: out.

Definition clean_elems (is_rooted : bool) (elems : list string) : list string :=
  rev (fold_left (clean_step is_rooted) elems []).

(** The string for the elements kept: after the root when rooted, and
    ["."] when a relative path has no element left. *)
Definition render (is_rooted : bool) (out : list string) : string :=
  if is_rooted then "/" ++ join_slash out
  else match out with
       | [] => "."
       | _ => join_slash out
       end.

(** [filepath.Clean(path)]. *)
Definition Clean (path : string) : string :=
  render (rooted path) (clean_elems (rooted path) (split_slash path)).

(** [filepath.Join(elem...)]: leading empty elements are skipped, the
    rest is joined with the separator and cleaned. *)
Fixpoint Join (elem : list string) : string :=
  match elem with
  | [] => ""
  | e :: rest =>
      if String.eqb e "" then Join rest
      else Clean (join_slash elem)
  end.

End Filepath.

(** ** Data model *)

(** Go [error] values, by the class the code distinguishes:
    [os.IsNotExist] separates a missing file from every other failure. *)
Inductive error : Type :=
| ErrNotExist (name : string)
| ErrPermission (name : string)
| ErrIO (msg : string)
| ErrURL (msg : string)
| ErrParse (msg : string).

Module Os.
(** [os.IsNotExist(err)]. *)
Definition IsNotExist (e : error) : bool :=
  match e with
  | ErrNotExist _ => true
  | _ => false
  end.
End Os.

(** A Go result pair [(v, err)]: exactly one of the two is meaningful. *)
Inductive result (A : Type) : Type :=
| Ok (v : A)
| Err (e : error).
Arguments Ok {A} v.
Arguments Err {A} e.

Definition bytes : Type := list Byte.byte.

Module Loc.
Record sourceMapLocation : Type := mk
  { dir : string; path : string; pluginID : string }.
End Loc.
Abbreviation sourceMapLocation := Loc.sourceMapLocation.

(** [*sourcemap.Consumer]: the parsed map, queried through [Source], which
    returns [(source, name, line, column, ok)]. *)
Record Consumer : Type :=
  { Source : Z -> Z -> string * string * Z * Z * bool }.

Module SMap.
Record sourceMap : Type := mk
  { consumer : Consumer; pluginID : string }.
End SMap.
Abbreviation sourceMap := SMap.sourceMap.

(** [url.URL], with the fields a parsed URL is split into. *)
Record URL : Type :=
  { Scheme : string; Host : string; Path : string;
    RawQuery : string; Fragment : string }.

(** Modelled from the spec: [plugins.PluginStaticRoute] is declared in
    [pkg/plugins], outside this file; an entry of the route registry is a
    plugin identifier with the directory of the plugin's static assets,
    read here as [route.PluginId] and [route.Directory]. *)
Record PluginStaticRoute : Type :=
  { Directory : string; PluginId : string }.

(** Modelled from the spec: [setting.Cfg] is declared in [pkg/setting],
    outside this file; the configuration supplies the root directory of the
    built core assets, read here as [cfg.StaticRootPath]. *)
Record Cfg : Type := { StaticRootPath : string }.

(** [sentry.Frame] of the sentry-go library; [Module_] is its field
    [Module]. *)
Record Frame : Type :=
  { Function : string;
    Symbol : string;
    Module_ : string;
    Package : string;
    Filename : string;
    AbsPath : string;
    Lineno : Z;
    Colno : Z;
    PreContext : list string;
    ContextLine : string;
    PostContext : list string;
    InApp : bool;
    Vars : list (string * string) }.

(** The file system as the reader sees it: opening and fully reading the
    file at an OS path gives its bytes or an error. *)
Definition FileSystem : Type := string -> result bytes.

(** [ReadSourceMapFn]; the file system it acts on is made explicit. *)
Definition ReadSourceMapFn : Type := FileSystem -> string -> string -> result bytes.

(** What a call of the store depends on besides the store itself: the
    library functions [url.Parse] and [sourcemap.Parse], the global
    [plugins.StaticRoutes], and the file system at the time of the call. *)
Record Env : Type :=
  { url_Parse : string -> result URL;
    sourcemap_Parse : string -> bytes -> result Consumer;
    StaticRoutes : list PluginStaticRoute;
    fs : FileSystem }.

(** [SourceMapStore].  A cache entry [Some None] is a key bound to [nil];
    [None] is an absent key.  The embedded mutex is modelled in the
    interleaving semantics further down. *)
Record SourceMapStore : Type :=
  { cache : gmap string (option sourceMap);
    cfg : Cfg;
    readSourceMap : ReadSourceMapFn }.

Definition NewSourceMapStore (c : Cfg) (read : ReadSourceMapFn) : SourceMapStore :=
  {| cache := ∅; cfg := c; readSourceMap := read |}.

Definition set_cache (store : SourceMapStore) (sourceURL : string)
  (v : option sourceMap) : SourceMapStore :=
  {| cache := <[sourceURL := v]> (cache store);
     cfg := cfg store;
     readSourceMap := readSourceMap store |}.

(** ** [ReadSourceMapFromFs]

    [http.Dir(dir).Open(path)] opens
    [filepath.Join(dir, path.Clean("/" + path))], with [dir] replaced by
    ["."] when empty; the deferred [Close] does not affect the result. *)

Module Http.
Definition Dir_fullName (d : string) (name : string) : string :=
  let d' := if String.eqb d "" then "." else d in
  Filepath.Join [d'; Filepath.Clean ("/" ++ name)].
End Http.

Definition ReadSourceMapFromFs : ReadSourceMapFn :=
  fun fsys dir path => fsys (Http.Dir_fullName dir path).

(** ** [guessSourceMapLocation] *)

(** The loop over [plugins.StaticRoutes]: the first route whose prefix
    matches decides. *)
Fixpoint guessPluginRoute (upath : string) (routes : list PluginStaticRoute)
  : option sourceMapLocation :=
  match routes with
  | [] => None
  | route :: rest =>
      let pluginPrefix := Filepath.Join ["/public/plugins/"; PluginId route] in
      if Strings.HasPrefix upath pluginPrefix then
        Some (Loc.mk (Directory route)
                (Strings.slice_from (String.length pluginPrefix) upath ++ ".map")
                (PluginId route))
      else guessPluginRoute upath rest
  end.

Definition guessSourceMapLocation (env : Env) (store : SourceMapStore)
  (sourceURL : string) : result (option sourceMapLocation) :=
  match url_Parse env sourceURL with
  | Err e => Err e
  | Ok u =>
      if Strings.HasPrefix (Path u) "/public/build/" then
        Ok (Some (Loc.mk (StaticRootPath (cfg store))
                    (Filepath.Join
                       ["build";
                        Strings.slice_from (String.length "/public/build/") (Path u)]
                     ++ ".map")
                    ""))
      else if Strings.HasPrefix (Path u) "/public/plugins/" then
        Ok (guessPluginRoute (Path u) (StaticRoutes env))
      else Ok None
  end.

(** ** [getSourceMap] *)

(** The calls a lookup makes outside the store, in the order made. *)
Inductive Event : Type :=
| EvGuess (sourceURL : string)
| EvRead (sourceURL dir path : string)
| EvParse (sourceURL name : string) (b : bytes).

Definition event_url (ev : Event) : string :=
  match ev with
  | EvGuess u => u
  | EvRead u _ _ => u
  | EvParse u _ _ => u
  end.

(** The outcome of a store method: the store afterwards, the outside calls
    made, and the Go result pair. *)
Record Ret (A : Type) : Type := mkRet
  { after : SourceMapStore; trace : list Event; value : result A }.
Arguments mkRet {A} after trace value.
Arguments after {A} r.
Arguments trace {A} r.
Arguments value {A} r.

(** Lines 102-106: the path handed to the reader. *)
Definition normalizePath (p : string) : string :=
  let p' := if Strings.HasPrefix p "/" then "/" ++ p else p in
  Filepath.Clean p'.

Definition getSourceMap (env : Env) (store : SourceMapStore) (sourceURL : string)
  : Ret (option sourceMap) :=
  match cache store !! sourceURL with
  | Some smap => mkRet store [] (Ok smap)
  | None =>
      match guessSourceMapLocation env store sourceURL with
      | Err e => mkRet store [EvGuess sourceURL] (Err e)
      | Ok None =>
          mkRet (set_cache store sourceURL None) [EvGuess sourceURL] (Ok None)
      | Ok (Some sourceMapLocation) =>
          let path := normalizePath (Loc.path sourceMapLocation) in
          let dir := Loc.dir sourceMapLocation in
          let evs := [EvGuess sourceURL; EvRead sourceURL dir path] in
          match readSourceMap store (fs env) dir path with
          | Err e =>
              if Os.IsNotExist e then
                mkRet (set_cache store sourceURL None) evs (Ok None)
              else mkRet store evs (Err e)
          | Ok b =>
              let name := sourceURL ++ ".map" in
              let evs' := (evs ++ [EvParse sourceURL name b])%list in
              match sourcemap_Parse env name b with
              | Err e => mkRet store evs' (Err e)
              | Ok consumer =>
                  let smap := SMap.mk consumer (Loc.pluginID sourceMapLocation) in
                  mkRet (set_cache store sourceURL (Some smap)) evs' (Ok (Some smap))
              end
          end
      end
  end.

(** ** [resolveSourceLocation] *)

Definition resolveSourceLocation (env : Env) (store : SourceMapStore) (frame : Frame)
  : Ret (option Frame) :=
  let r := getSourceMap env store (Filename frame) in
  match value r with
  | Err e => mkRet (after r) (trace r) (Err e)
  | Ok None => mkRet (after r) (trace r) (Ok None)
  | Ok (Some smap) =>
      let '(file, function, line, col, ok) :=
        Source (SMap.consumer smap) (Lineno frame) (Colno frame) in
      if negb ok then mkRet (after r) (trace r) (Ok None)
      else
        let function := if Nat.eqb (String.length function) 0 then "?" else function in
        let module := if Nat.ltb 0 (String.length (SMap.pluginID smap))
                      then SMap.pluginID smap else "core" in
        mkRet (after r) (trace r)
          (Ok (Some {| Function := function;
                       Symbol := "";
                       Module_ := module;
                       Package := "";
                       Filename := file;
                       AbsPath := "";
                       Lineno := line;
                       Colno := col;
                       PreContext := [];
                       ContextLine := "";
                       PostContext := [];
                       InApp := false;
                       Vars := [] |}))
  end.

(** ** Fixtures

    Concrete collaborators, used to evaluate the definitions above. *)

Module Fixture.

Definition plain_char (c : ascii) : bool :=
  let n := nat_of_ascii c in
  Nat.ltb 32 n && Nat.ltb n 127
  && negb (Ascii.eqb c "?") && negb (Ascii.eqb c "#") && negb (Ascii.eqb c "%").

(** [url.Parse] on its simplest inputs: a string that starts with one
    ['/'] and has no control byte, space, ['?'], ['#'] or ['%'] has no
    scheme, authority, query or fragment and nothing to unescape, so the
    whole string is the path.  Every other input is rejected here. *)
Definition bare_url_Parse (rawURL : string) : result URL :=
  if Strings.HasPrefix rawURL "/" && negb (Strings.HasPrefix rawURL "//")
     && forallb plain_char (list_ascii_of_string rawURL)
  then Ok {| Scheme := ""; Host := ""; Path := rawURL; RawQuery := ""; Fragment := "" |}
  else Err (ErrURL "not a bare absolute path").

(** A consumer with the single mapping (1,1) -> (src/app.ts, 10, 2), under
    the given function name. *)
Definition consumer_of (name : string) : Consumer :=
  {| Source := fun genLine genColumn =>
       if Z.eqb genLine 1 && Z.eqb genColumn 1
       then ("src/app.ts", name, 10%Z, 2%Z, true)
       else ("", "", 0%Z, 0%Z, false) |}.

(** A parser that accepts the one-byte map ["x01"] (function [render]) and
    the one-byte map ["x02"] (no function name). *)
Definition tiny_sourcemap_Parse (name : string) (b : bytes) : result Consumer :=
  match b with
  | [Byte.x01] => Ok (consumer_of "render")
  | [Byte.x02] => Ok (consumer_of "")
  | _ => Err (ErrParse "sourcemap: invalid format")
  end.

Definition routes : list PluginStaticRoute :=
  [ {| Directory := "/var/lib/grafana/plugins/acme"; PluginId := "acme" |};
    {| Directory := "/var/lib/grafana/plugins/acme-panel"; PluginId := "acme-panel" |} ].

Definition files (fullName : string) : result bytes :=
  if String.eqb fullName "/usr/share/grafana/public/build/app.js.map" then Ok [Byte.x01]
  else if String.eqb fullName "/var/lib/grafana/plugins/acme-panel/module.js.map" then Ok [Byte.x01]
  else if String.eqb fullName "/usr/share/grafana/public/build/bare.js.map" then Ok [Byte.x02]
  else if String.eqb fullName "/usr/share/grafana/public/build/broken.js.map" then Ok [Byte.x03]
  else if String.eqb fullName "/usr/share/grafana/public/build/locked.js.map"
  then Err (ErrPermission fullName)
  else Err (ErrNotExist fullName).

Definition env_with (rs : list PluginStaticRoute) : Env :=
  {| url_Parse := bare_url_Parse;
     sourcemap_Parse := tiny_sourcemap_Parse;
     StaticRoutes := rs;
     fs := files |}.

Definition env : Env := env_with routes.

Definition store : SourceMapStore :=
  NewSourceMapStore {| StaticRootPath := "/usr/share/grafana/public" |}
    ReadSourceMapFromFs.

Definition frame_at (url : string) (line col : Z) : Frame :=
  {| Function := "e"; Symbol := ""; Module_ := ""; Package := "";
     Filename := url; AbsPath := url; Lineno := line; Colno := col;
     PreContext := []; ContextLine := "!function(e){"; PostContext := [];
     InApp := true; Vars := [] |}.

End Fixture.

(** ** Vocabulary of the statements *)

(** The module a resolved frame is attributed to. *)
Definition owning_module (smap : sourceMap) : string :=
  if String.eqb (SMap.pluginID smap) "" then "core" else SMap.pluginID smap.

(** The function name a resolved frame shows for the name the map gives. *)
Definition shown_function (name : string) : string :=
  if String.eqb name "" then "?" else name.

(** A frame that carries the five resolved fields and nothing else. *)
Definition resolved_frame (file : string) (line col : Z) (function module : string)
  : Frame :=
  {| Function := function; Symbol := ""; Module_ := module; Package := "";
     Filename := file; AbsPath := ""; Lineno := line; Colno := col;
     PreContext := []; ContextLine := ""; PostContext := [];
     InApp := false; Vars := [] |}.

(** What [resolveSourceLocation] builds from the answer of [getSourceMap]. *)
Definition frame_of (smap : sourceMap) (line col : Z) : option Frame :=
  let '(file, function, line', col', ok) := Source (SMap.consumer smap) line col in
  if ok
  then Some (resolved_frame file line' col' (shown_function function) (owning_module smap))
  else None.

(** The later life of a store: lookups made one after the other, each under
    the routes and file system of its own moment. *)
Fixpoint run_lookups (calls : list (Env * string)) (store : SourceMapStore)
  : SourceMapStore * list Event :=
  match calls with
  | [] => (store, [])
  | (env, sourceURL) :: rest =>
      let r := getSourceMap env store sourceURL in
      let '(store', evs) := run_lookups rest (after r) in
      (store', (trace r ++ evs)%list)
  end.

(** No map is available for a URL: the resolver knows no location for it, or
    the reader reports that the file at the guessed location does not
    exist. *)
Definition no_map_available (env : Env) (store : SourceMapStore) (sourceURL : string)
  : Prop :=
  guessSourceMapLocation env store sourceURL = Ok None
  \/ exists loc e,
       guessSourceMapLocation env store sourceURL = Ok (Some loc)
       /\ readSourceMap store (fs env) (Loc.dir loc) (normalizePath (Loc.path loc)) = Err e
       /\ Os.IsNotExist e = true.

(** The stores a new store can become through lookups under fixed routes,
    library functions and file system. *)
Inductive reachable (env : Env) : SourceMapStore -> Prop :=
| reach_new c read : reachable env (NewSourceMapStore c read)
| reach_lookup store sourceURL :
    reachable env store -> reachable env (after (getSourceMap env store sourceURL)).

(** Every positive entry was loaded from the location the resolver gives. *)
Definition loaded_from (env : Env) (store : SourceMapStore) : Prop :=
  forall sourceURL smap,
    cache store !! sourceURL = Some (Some smap) ->
    exists loc b consumer,
      guessSourceMapLocation env store sourceURL = Ok (Some loc)
      /\ readSourceMap store (fs env) (Loc.dir loc) (normalizePath (Loc.path loc)) = Ok b
      /\ sourcemap_Parse env (sourceURL ++ ".map") b = Ok consumer
      /\ smap = SMap.mk consumer (Loc.pluginID loc).

(** Loading the map of a URL fails with [e]: the resolver gives a location
    and either the reader fails there with an error other than "does not
    exist", or the bytes read do not parse. *)
Definition load_fails (env : Env) (store : SourceMapStore) (sourceURL : string)
  (e : error) : Prop :=
  exists loc,
    guessSourceMapLocation env store sourceURL = Ok (Some loc)
    /\ let read := readSourceMap store (fs env) (Loc.dir loc)
                     (normalizePath (Loc.path loc)) in
       (read = Err e /\ Os.IsNotExist e = false)
       \/ exists b, read = Ok b /\ sourcemap_Parse env (sourceURL ++ ".map") b = Err e.

(** ** Path elements *)

Module PathElems.
Import Strings Filepath.

Fixpoint slash_free (s : string) : bool :=
  match s with
  | EmptyString => true
  | String c s' => negb (Ascii.eqb c "/") && slash_free s'
  end.

(** A real path element: a non-empty name other than [.] and [..]. *)
Definition is_real (e : string) : bool :=
  negb (String.eqb e "") && negb (String.eqb e ".") && negb (String.eqb e "..")
  && slash_free e.

(** The path has a [..] element. *)
Definition has_dotdot (p : string) : bool :=
  existsb (fun e => String.eqb e "..") (split_slash p).


End PathElems.

(** ** Concurrent callers

    [getSourceMap] begins with [store.Lock()] and defers [store.Unlock()].
    Goroutines calling it are modelled by an interleaving semantics: each
    caller is at one of the program points below, the mutex is a flag, and a
    step of the system is a step of one caller; [Lock] can be taken only
    while the flag is down. *)

Module Conc.

(** The program points of one call of [getSourceMap(sourceURL)]. *)
Inductive pc : Type :=
| AtLock (sourceURL : string)
| AtLookup (sourceURL : string)
| AtRead (sourceURL : string) (loc : sourceMapLocation)
| AtParse (sourceURL : string) (loc : sourceMapLocation) (b : bytes)
| AtUnlock (ret : result (option sourceMap))
| Returned (ret : result (option sourceMap)).

(** Between [Lock] and the deferred [Unlock]. *)
Definition in_cs (p : pc) : bool :=
  match p with
  | AtLookup _ | AtRead _ _ | AtParse _ _ _ | AtUnlock _ => true
  | AtLock _ | Returned _ => false
  end.

Record state : Type := mkState
  { store : SourceMapStore;
    locked : bool;
    threads : nat -> pc;
    log : list Event }.

Definition upd (i : nat) (p : pc) (ts : nat -> pc) : nat -> pc :=
  fun j => if Nat.eqb j i then p else ts j.

(** One step of caller [i]; [None] when the caller is blocked on the mutex
    or has returned. *)
Definition step_thread (env : Env) (s : state) (i : nat) : option state :=
  let at_ st p evs := Some (mkState st (locked s) (upd i p (threads s)) (log s ++ evs)%list) in
  match threads s i with
  | AtLock sourceURL =>
      if locked s then None
      else Some (mkState (store s) true (upd i (AtLookup sourceURL) (threads s)) (log s))
  | AtLookup sourceURL =>
      match cache (store s) !! sourceURL with
      | Some smap => at_ (store s) (AtUnlock (Ok smap)) []
      | None =>
          match guessSourceMapLocation env (store s) sourceURL with
          | Err e => at_ (store s) (AtUnlock (Err e)) [EvGuess sourceURL]
          | Ok None =>
              at_ (set_cache (store s) sourceURL None) (AtUnlock (Ok None))
                [EvGuess sourceURL]
          | Ok (Some loc) => at_ (store s) (AtRead sourceURL loc) [EvGuess sourceURL]
          end
      end
  | AtRead sourceURL loc =>
      let path := normalizePath (Loc.path loc) in
      let dir := Loc.dir loc in
      match readSourceMap (store s) (fs env) dir path with
      | Err e =>
          if Os.IsNotExist e
          then at_ (set_cache (store s) sourceURL None) (AtUnlock (Ok None))
                 [EvRead sourceURL dir path]
          else at_ (store s) (AtUnlock (Err e)) [EvRead sourceURL dir path]
      | Ok b => at_ (store s) (AtParse sourceURL loc b) [EvRead sourceURL dir path]
      end
  | AtParse sourceURL loc b =>
      let name := sourceURL ++ ".map" in
      match sourcemap_Parse env name b with
      | Err e => at_ (store s) (AtUnlock (Err e)) [EvParse sourceURL name b]
      | Ok consumer =>
          let smap := SMap.mk consumer (Loc.pluginID loc) in
          at_ (set_cache (store s) sourceURL (Some smap)) (AtUnlock (Ok (Some smap)))
            [EvParse sourceURL name b]
      end
  | AtUnlock ret =>
      Some (mkState (store s) false (upd i (Returned ret) (threads s)) (log s))
  | Returned _ => None
  end.

(** The system under a schedule: the callers named take their steps in
    turn; a caller that cannot step is passed over. *)
Fixpoint run (env : Env) (sched : list nat) (s : state) : state :=
  match sched with
  | [] => s
  | i :: rest =>
      run env rest (match step_thread env s i with
                    | Some s' => s'
                    | None => s
                    end)
  end.

(** Caller [i] is about to call [getSourceMap(urls i)]; nobody holds the
    mutex. *)
Definition init (st : SourceMapStore) (urls : nat -> string) : state :=
  mkState st false (fun i => AtLock (urls i)) [].






(** *** The invariant of the interleaving semantics, for one URL

    [st0] is the store the callers share at the start and [u] the URL
    whose reads and parses are counted. *)




End Conc.

(** ** Further vocabulary *)

(** The test of the loop over the routes: the path begins with
    [/public/plugins/] joined with the route's identifier. *)
Definition route_matches (upath : string) (route : PluginStaticRoute) : bool :=
  Strings.HasPrefix upath (Filepath.Join ["/public/plugins/"; PluginId route]).

(** The location the loop returns for a matching route. *)
Definition route_location (upath : string) (route : PluginStaticRoute)
  : sourceMapLocation :=
  Loc.mk (Directory route)
    (Strings.slice_from
       (String.length (Filepath.Join ["/public/plugins/"; PluginId route])) upath
     ++ ".map")
    (PluginId route).

(** Lookups of the given URLs, all under one environment. *)
Definition calls_under (env : Env) (urls : list string) : list (Env * string) :=
  map (fun sourceURL => (env, sourceURL)) urls.

(** The scan of [Clean], from the empty output, on a rooted and on a
    relative path. *)
Definition rooted_scan (p : string) : list string :=
  fold_left (Filepath.clean_step true) (Strings.split_slash p) [].

Definition relative_scan (p : string) : list string :=
  fold_left (Filepath.clean_step false) (Strings.split_slash p) [].

Definition not_dotdot (e : string) : bool := negb (String.eqb e "..").

(** The output of the scan of a relative path, last element first: real
    elements on top of [..] elements. *)
Fixpoint well_stacked (out : list string) : bool :=
  match out with
  | [] => true
  | x :: below =>
      if String.eqb x ".." then forallb (fun e => String.eqb e "..") below
      else PathElems.is_real x && well_stacked below
  end.

(** ** Callers one after the other

    The sequential reading of a concurrent run: the callers [ids] call
    [getSourceMap] in turn, caller [i] for [urls i]. *)

Fixpoint serial_results (env : Env) (urls : nat -> string) (ids : list nat)
  (store : SourceMapStore) : list (nat * result (option sourceMap)) :=
  match ids with
  | [] => []
  | i :: rest =>
      let r := getSourceMap env store (urls i) in
      (i, value r) :: serial_results env urls rest (after r)
  end.

Definition serial_state (env : Env) (urls : nat -> string) (ids : list nat)
  (store : SourceMapStore) : SourceMapStore * list Event :=
  run_lookups (calls_under env (map urls ids)) store.

(** The store and the log while caller [h] holds the mutex at [p], in terms
    of the store [st] and the log [l] of the moment it took the mutex. *)
Definition holder_at (env : Env) (urls : nat -> string) (h : nat)
  (st : SourceMapStore) (l : list Event) (p : Conc.pc)
  (st' : SourceMapStore) (l' : list Event) : Prop :=
  match p with
  | Conc.AtLookup k => k = urls h /\ st' = st /\ l' = l
  | Conc.AtRead k loc =>
      k = urls h /\ st' = st /\ l' = (l ++ [EvGuess k])%list
      /\ cache st !! k = None
      /\ guessSourceMapLocation env st k = Ok (Some loc)
  | Conc.AtParse k loc b =>
      let dir := Loc.dir loc in
      let path := normalizePath (Loc.path loc) in
      k = urls h /\ st' = st
      /\ l' = (l ++ [EvGuess k; EvRead k dir path])%list
      /\ cache st !! k = None
      /\ guessSourceMapLocation env st k = Ok (Some loc)
      /\ readSourceMap st (fs env) dir path = Ok b
  | Conc.AtUnlock ret =>
      let r := getSourceMap env st (urls h) in
      st' = after r /\ l' = (l ++ trace r)%list /\ ret = value r
  | Conc.AtLock _ | Conc.Returned _ => False
  end.

(** The state of a concurrent run is the state of the callers [done] having
    called one after the other, up to the call in progress. *)
Definition serial_inv (env : Env) (st0 : SourceMapStore) (urls : nat -> string)
  (done : list nat) (s : Conc.state) : Prop :=
  NoDup done
  /\ (forall j k, Conc.threads s j = Conc.AtLock k -> k = urls j)
  /\ (forall i r, Conc.threads s i = Conc.Returned r
                  <-> In (i, r) (serial_results env urls done st0))
  /\ let S := serial_state env urls done st0 in
     if Conc.locked s
     then exists h,
         ~ In h done
         /\ (forall j, j <> h -> Conc.in_cs (Conc.threads s j) = false)
         /\ holder_at env urls h (fst S) (snd S) (Conc.threads s h)
              (Conc.store s) (Conc.log s)
     else (forall j, Conc.in_cs (Conc.threads s j) = false)
          /\ Conc.store s = fst S /\ Conc.log s = snd S.

(** * Properties *)

Example Clean_examples :
  Filepath.Clean "//a/./b/../c/" = "/a/c"
  /\ Filepath.Clean "build/../../etc/passwd" = "../etc/passwd"
  /\ Filepath.Clean "" = "."
  /\ Filepath.Clean "/../.." = "/"
  /\ Filepath.Clean "../../a/../b" = "../../b"
  /\ Filepath.Join ["/public/plugins/"; "acme"] = "/public/plugins/acme"
  /\ Filepath.Join ["build"; "app.js"] = "build/app.js"
  /\ Filepath.Join ["build"; ""] = "build".
Proof. repeat split; reflexivity. Qed.

(** The cases of the test table of Go's [path/filepath] for [Clean]. *)
Example Clean_go_cases :
  forallb (fun c => String.eqb (Filepath.Clean (fst c)) (snd c))
    [ ("abc", "abc"); ("abc/def", "abc/def"); ("a/b/c", "a/b/c"); (".", ".");
      ("..", ".."); ("../..", "../.."); ("../../abc", "../../abc");
      ("/abc", "/abc"); ("/", "/"); ("", "."); ("abc/", "abc");
      ("abc/def/", "abc/def"); ("a/b/c/", "a/b/c"); ("./", "."); ("../", "..");
      ("../../", "../.."); ("/abc/", "/abc"); ("abc//def//ghi", "abc/def/ghi");
      ("//abc", "/abc"); ("///abc", "/abc"); ("//abc//", "/abc"); ("abc//", "abc");
      ("abc/./def", "abc/def"); ("/./abc/def", "/abc/def"); ("abc/.", "abc");
      ("abc/def/ghi/../jkl", "abc/def/jkl"); ("abc/def/../ghi/../jkl", "abc/jkl");
      ("abc/def/..", "abc"); ("abc/def/../..", "."); ("/abc/def/../..", "/");
      ("abc/def/../../..", ".."); ("/abc/def/../../..", "/");
      ("abc/def/../../../ghi/jkl/../../../mno", "../../mno"); ("/../abc", "/abc");
      ("abc/./../def", "def"); ("abc//./../def", "def");
      ("abc/../../././../def", "../../def") ]
  = true.
Proof. reflexivity. Qed.

(** ** Basic facts *)

Lemma length_zero_eqb (s : string) :
  Nat.eqb (String.length s) 0 = String.eqb s "".
Proof. destruct s; reflexivity. Qed.

Lemma length_pos_eqb (s : string) :
  Nat.ltb 0 (String.length s) = negb (String.eqb s "").
Proof. destruct s; reflexivity. Qed.

Lemma getSourceMap_hit env store sourceURL v :
  cache store !! sourceURL = Some v ->
  getSourceMap env store sourceURL = mkRet store [] (Ok v).
Proof. intros Hhit. unfold getSourceMap. rewrite Hhit. reflexivity. Qed.

Lemma resolve_unfold env store frame :
  resolveSourceLocation env store frame =
  let r := getSourceMap env store (Filename frame) in
  mkRet (after r) (trace r)
    match value r with
    | Err e => Err e
    | Ok None => Ok None
    | Ok (Some smap) => Ok (frame_of smap (Lineno frame) (Colno frame))
    end.
Proof.
  unfold resolveSourceLocation, frame_of; cbv zeta.
  destruct (value (getSourceMap env store (Filename frame))) as [[smap|]|e];
    try reflexivity.
  destruct (Source (SMap.consumer smap) (Lineno frame) (Colno frame))
    as [[[[file function] line] col] ok].
  destruct ok; cbn [negb]; [|reflexivity].
  unfold resolved_frame, shown_function, owning_module.
  rewrite length_zero_eqb, length_pos_eqb.
  destruct (String.eqb (SMap.pluginID smap) ""); reflexivity.
Qed.

(** ** C1: resolving through a cached map *)




(** ** How a lookup leaves the store *)

Lemma getSourceMap_cfg env store sourceURL :
  cfg (after (getSourceMap env store sourceURL)) = cfg store
  /\ readSourceMap (after (getSourceMap env store sourceURL)) = readSourceMap store.
Proof.
  unfold getSourceMap.
  destruct (cache store !! sourceURL); [split; reflexivity|].
  destruct (guessSourceMapLocation env store sourceURL) as [[loc|]|e];
    try (split; reflexivity).
  destruct (readSourceMap store _ _ _) as [b|e].
  - destruct (sourcemap_Parse env _ b); split; reflexivity.
  - destruct (Os.IsNotExist e); split; reflexivity.
Qed.

(** A lookup that returns without error leaves its answer in the cache. *)
Lemma getSourceMap_ok_cached env store sourceURL v :
  value (getSourceMap env store sourceURL) = Ok v ->
  cache (after (getSourceMap env store sourceURL)) !! sourceURL = Some v.
Proof.
  unfold getSourceMap.
  destruct (cache store !! sourceURL) as [w|] eqn:Hc.
  - cbn. intros [= <-]. exact Hc.
  - destruct (guessSourceMapLocation env store sourceURL) as [[loc|]|e]; cbn.
    + destruct (readSourceMap store _ _ _) as [b|e].
      * destruct (sourcemap_Parse env _ b); cbn; [|discriminate].
        intros [= <-]. apply lookup_insert_eq.
      * destruct (Os.IsNotExist e); cbn; [|discriminate].
        intros [= <-]. apply lookup_insert_eq.
    + intros [= <-]. apply lookup_insert_eq.
    + discriminate.
Qed.

(** A lookup changes the cache at no other key, and at its own key only
    when the key was absent. *)
Lemma getSourceMap_other env store sourceURL k :
  k <> sourceURL ->
  cache (after (getSourceMap env store sourceURL)) !! k = cache store !! k.
Proof.
  intros Hne. unfold getSourceMap.
  destruct (cache store !! sourceURL); [reflexivity|].
  destruct (guessSourceMapLocation env store sourceURL) as [[loc|]|e]; cbn;
    try reflexivity.
  - destruct (readSourceMap store _ _ _) as [b|e].
    + destruct (sourcemap_Parse env _ b); cbn; [|reflexivity].
      apply lookup_insert_ne. congruence.
    + destruct (Os.IsNotExist e); cbn; [|reflexivity].
      apply lookup_insert_ne. congruence.
  - apply lookup_insert_ne. congruence.
Qed.

Lemma getSourceMap_keeps env store sourceURL k v :
  cache store !! k = Some v ->
  cache (after (getSourceMap env store sourceURL)) !! k = Some v.
Proof.
  intros Hk. destruct (decide (k = sourceURL)) as [->|Hne].
  - rewrite (getSourceMap_hit _ _ _ _ Hk). exact Hk.
  - rewrite getSourceMap_other by exact Hne. exact Hk.
Qed.

(** Every outside call of a lookup is made for the URL looked up. *)
Lemma getSourceMap_trace_url env store sourceURL ev :
  In ev (trace (getSourceMap env store sourceURL)) -> event_url ev = sourceURL.
Proof.
  unfold getSourceMap.
  destruct (cache store !! sourceURL); [intros []|].
  destruct (guessSourceMapLocation env store sourceURL) as [[loc|]|e]; cbn.
  - destruct (readSourceMap store _ _ _) as [b|e].
    + destruct (sourcemap_Parse env _ b); cbn; intuition (subst; reflexivity).
    + destruct (Os.IsNotExist e); cbn; intuition (subst; reflexivity).
  - intuition (subst; reflexivity).
  - intuition (subst; reflexivity).
Qed.

(** ** C3: a cached URL is answered from the cache *)

(** C3: for a source URL that has a cache entry, positive or negative,
    [getSourceMap] returns that entry, makes no call to the location
    resolver, the reader or the parser, and leaves the store unchanged, so a
    second call returns the same again; resolving the same frame a
    second time, whatever the file system and routes have become, gives the
    identical result, again without any outside call. *)
Theorem C3_cached_lookup_is_idempotent env env' store frame v :
  cache store !! Filename frame = Some v ->
  getSourceMap env store (Filename frame) = mkRet store [] (Ok v)
  /\ getSourceMap env' (after (getSourceMap env store (Filename frame))) (Filename frame)
     = getSourceMap env store (Filename frame)
  /\ trace (resolveSourceLocation env store frame) = []
  /\ resolveSourceLocation env' (after (resolveSourceLocation env store frame)) frame
     = resolveSourceLocation env store frame.
Proof.
  intros Hhit.
  pose proof (getSourceMap_hit env store _ _ Hhit) as H1.
  pose proof (getSourceMap_hit env' store _ _ Hhit) as H2.
  split; [exact H1|]. split.
  - rewrite H1. cbn [after]. rewrite H2. reflexivity.
  - rewrite !resolve_unfold. cbv zeta. rewrite H1. cbn [after trace value].
    split; [reflexivity|]. rewrite H2. reflexivity.
Qed.

Lemma C3_cached_lookup_is_idempotent_witness :
  let store := set_cache Fixture.store "/public/build/none.js" None in
  let frame := Fixture.frame_at "/public/build/none.js" 1 1 in
  getSourceMap Fixture.env store (Filename frame) = mkRet store [] (Ok None)
  /\ getSourceMap (Fixture.env_with [])
       (after (getSourceMap Fixture.env store (Filename frame))) (Filename frame)
     = getSourceMap Fixture.env store (Filename frame)
  /\ trace (resolveSourceLocation Fixture.env store frame) = []
  /\ resolveSourceLocation (Fixture.env_with [])
       (after (resolveSourceLocation Fixture.env store frame)) frame
     = resolveSourceLocation Fixture.env store frame.
Proof.
  cbv zeta.
  apply (C3_cached_lookup_is_idempotent Fixture.env (Fixture.env_with []) _ _ None).
  vm_compute. reflexivity.
Defined.

(** Once a frame has been resolved without error, resolving it again gives
    the same answer from the cache alone. *)
Lemma resolve_twice env env' store frame x :
  value (resolveSourceLocation env store frame) = Ok x ->
  resolveSourceLocation env' (after (resolveSourceLocation env store frame)) frame
  = mkRet (after (resolveSourceLocation env store frame)) [] (Ok x).
Proof.
  rewrite (resolve_unfold env). cbv zeta. cbn [after value].
  destruct (value (getSourceMap env store (Filename frame))) as [v|e] eqn:Hv;
    [|discriminate].
  pose proof (getSourceMap_ok_cached _ _ _ _ Hv) as Hc.
  intros Hx. rewrite resolve_unfold. cbv zeta.
  rewrite (getSourceMap_hit env' _ _ _ Hc). cbn [after trace value].
  destruct v; congruence.
Qed.

(** ** Prefixes and slices *)

Lemma append_cons (c : ascii) (s t : string) :
  String c s ++ t = String c (s ++ t).
Proof. reflexivity. Qed.

Lemma append_nil (t : string) : "" ++ t = t.
Proof. reflexivity. Qed.

Lemma HasPrefix_app (p rest : string) : Strings.HasPrefix (p ++ rest) p = true.
Proof.
  unfold Strings.HasPrefix.
  induction p as [|c p IH].
  - rewrite append_nil. destruct rest; reflexivity.
  - rewrite append_cons. cbn [String.prefix].
    destruct (ascii_dec c c); [exact IH|congruence].
Qed.

Lemma slice_from_app (p rest : string) :
  Strings.slice_from (String.length p) (p ++ rest) = rest.
Proof.
  induction p as [|c p IH].
  - rewrite append_nil. destruct rest; reflexivity.
  - rewrite append_cons. cbn [String.length Strings.slice_from]. exact IH.
Qed.

Lemma HasPrefix_split (s p : string) :
  Strings.HasPrefix s p = true ->
  s = p ++ Strings.slice_from (String.length p) s.
Proof.
  unfold Strings.HasPrefix. revert s.
  induction p as [|c p IH]; intros s.
  - rewrite append_nil. destruct s; reflexivity.
  - destruct s as [|d s]; [discriminate|]. cbn [String.prefix].
    destruct (ascii_dec c d) as [->|]; [|discriminate].
    intros H. rewrite append_cons. cbn [String.length Strings.slice_from].
    f_equal. apply IH, H.
Qed.

(** ** C5: the location resolver *)

(** C5: [guessSourceMapLocation] fails exactly when [url.Parse] rejects the
    URL, with that error; and for a URL whose path is [/public/build/]
    followed by [rest], it returns the configured static root as directory,
    the relative path [filepath.Join("build", rest) + ".map"], and no owning
    plugin. *)
Theorem C5_guess_build_location env store sourceURL :
  (forall e, guessSourceMapLocation env store sourceURL = Err e
             <-> url_Parse env sourceURL = Err e)
  /\ (forall u rest,
        url_Parse env sourceURL = Ok u ->
        Path u = "/public/build/" ++ rest ->
        guessSourceMapLocation env store sourceURL =
        Ok (Some (Loc.mk (StaticRootPath (cfg store))
                    (Filepath.Join ["build"; rest] ++ ".map") ""))).
Proof.
  split.
  - intros e. unfold guessSourceMapLocation.
    destruct (url_Parse env sourceURL) as [u|e'].
    + split; [|discriminate].
      destruct (Strings.HasPrefix (Path u) "/public/build/"); [discriminate|].
      destruct (Strings.HasPrefix (Path u) "/public/plugins/"); discriminate.
    + split; intros [= ->]; reflexivity.
  - intros u rest Hu Hpath. unfold guessSourceMapLocation.
    rewrite Hu, Hpath, HasPrefix_app.
    rewrite (slice_from_app "/public/build/" rest). reflexivity.
Qed.

Lemma C5_guess_build_location_witness :
  guessSourceMapLocation Fixture.env Fixture.store "/public/build/app.js" =
  Ok (Some (Loc.mk "/usr/share/grafana/public" "build/app.js.map" "")).
Proof.
  apply (proj2 (C5_guess_build_location Fixture.env Fixture.store "/public/build/app.js")
           {| Scheme := ""; Host := ""; Path := "/public/build/app.js";
              RawQuery := ""; Fragment := "" |} "app.js");
    reflexivity.
Defined.

(** A path under neither prefix has no known location. *)
Lemma guess_neither_prefix env store sourceURL u :
  url_Parse env sourceURL = Ok u ->
  Strings.HasPrefix (Path u) "/public/build/" = false ->
  Strings.HasPrefix (Path u) "/public/plugins/" = false ->
  guessSourceMapLocation env store sourceURL = Ok None.
Proof.
  intros Hu Hb Hp. unfold guessSourceMapLocation. rewrite Hu, Hb, Hp. reflexivity.
Qed.

(** The resolver reads the store's configuration only. *)
Lemma guess_set_cache env store k v sourceURL :
  guessSourceMapLocation env (set_cache store k v) sourceURL
  = guessSourceMapLocation env store sourceURL.
Proof. reflexivity. Qed.

(** ** C9: plugin routes match by bare string prefix *)



(** ** C6 and C10: the resolved frame *)

(** A successful resolution comes from a map that is in the cache
    afterwards, at a position the map has a mapping for. *)
Lemma resolve_some_inv env store frame resolved :
  value (resolveSourceLocation env store frame) = Ok (Some resolved) ->
  exists smap file function line col,
    cache (after (resolveSourceLocation env store frame)) !! Filename frame
    = Some (Some smap)
    /\ Source (SMap.consumer smap) (Lineno frame) (Colno frame)
       = (file, function, line, col, true)
    /\ resolved
       = resolved_frame file line col (shown_function function) (owning_module smap).
Proof.
  rewrite resolve_unfold. cbv zeta. cbn [after value].
  destruct (value (getSourceMap env store (Filename frame))) as [[smap|]|e] eqn:Hv;
    try discriminate.
  unfold frame_of.
  destruct (Source (SMap.consumer smap) (Lineno frame) (Colno frame))
    as [[[[file function] line] col] ok] eqn:Hsrc.
  destruct ok; [|discriminate]. intros [= <-].
  exists smap, file, function, line, col.
  split; [|split; [exact Hsrc|reflexivity]].
  apply getSourceMap_ok_cached, Hv.
Qed.



(** The other two examples of the specification: a frame under
    [/public/build/] resolves with module [core], and a mapping without a
    function name shows ["?"]. *)
Example resolve_core_frame :
  value (resolveSourceLocation Fixture.env Fixture.store
           (Fixture.frame_at "/public/build/app.js" 1 1))
  = Ok (Some (resolved_frame "src/app.ts" 10 2 "render" "core")).
Proof. vm_compute. reflexivity. Qed.

Example resolve_unnamed_function :
  value (resolveSourceLocation Fixture.env Fixture.store
           (Fixture.frame_at "/public/build/bare.js" 1 1))
  = Ok (Some (resolved_frame "src/app.ts" 10 2 "?" "core")).
Proof. vm_compute. reflexivity. Qed.

(** The identifier of a freshly loaded map is the one the resolver guessed. *)
Lemma getSourceMap_fresh_pluginID env store sourceURL loc smap :
  cache store !! sourceURL = None ->
  guessSourceMapLocation env store sourceURL = Ok (Some loc) ->
  value (getSourceMap env store sourceURL) = Ok (Some smap) ->
  SMap.pluginID smap = Loc.pluginID loc.
Proof.
  intros Hmiss Hloc. unfold getSourceMap. rewrite Hmiss, Hloc.
  destruct (readSourceMap store _ _ _) as [b|e].
  - destruct (sourcemap_Parse env _ b); cbn; [|discriminate].
    intros [= <-]. reflexivity.
  - destruct (Os.IsNotExist e); discriminate.
Qed.

(** C10: a successfully resolved frame is built from scratch out of file
    name, line, column, function and module, every other field being the
    zero value of its type, and it depends on the reported frame through
    file name, line and column only: two reported frames that agree on
    these resolve alike, whatever their other fields hold. *)
Theorem C10_resolved_frame_is_fresh env store frame resolved :
  value (resolveSourceLocation env store frame) = Ok (Some resolved) ->
  (exists file line col function module,
      resolved = resolved_frame file line col function module)
  /\ Symbol resolved = "" /\ Package resolved = "" /\ AbsPath resolved = ""
  /\ PreContext resolved = [] /\ ContextLine resolved = ""
  /\ PostContext resolved = [] /\ InApp resolved = false /\ Vars resolved = []
  /\ forall frame',
       Filename frame' = Filename frame ->
       Lineno frame' = Lineno frame ->
       Colno frame' = Colno frame ->
       resolveSourceLocation env store frame' = resolveSourceLocation env store frame.
Proof.
  intros H. destruct (resolve_some_inv _ _ _ _ H)
    as (smap & file & function & line & col & _ & _ & ->).
  split; [eauto 6|]. repeat (split; [reflexivity|]).
  intros frame' Hf Hl Hc. rewrite !resolve_unfold. rewrite Hf, Hl, Hc. reflexivity.
Qed.

Lemma C10_resolved_frame_is_fresh_witness :
  let frame := Fixture.frame_at "/public/build/app.js" 1 1 in
  let resolved := resolved_frame "src/app.ts" 10 2 "render" "core" in
  AbsPath frame = "/public/build/app.js" /\ InApp frame = true
  /\ ContextLine frame = "!function(e){"
  /\ AbsPath resolved = "" /\ ContextLine resolved = "" /\ InApp resolved = false.
Proof.
  cbv zeta.
  pose proof (C10_resolved_frame_is_fresh Fixture.env Fixture.store
                (Fixture.frame_at "/public/build/app.js" 1 1)
                (resolved_frame "src/app.ts" 10 2 "render" "core")
                ltac:(vm_compute; reflexivity))
    as (_ & _ & _ & Habs & _ & Hctx & _ & Hin & _).
  repeat split; assumption.
Defined.

(** ** Sequences of lookups *)

(** An entry, once made, outlives every later lookup, and no later lookup
    makes an outside call for its URL. *)
Lemma run_lookups_entry_stable calls : forall store sourceURL v,
  cache store !! sourceURL = Some v ->
  cache (fst (run_lookups calls store)) !! sourceURL = Some v
  /\ forall ev, In ev (snd (run_lookups calls store)) -> event_url ev <> sourceURL.
Proof.
  induction calls as [|[env k] rest IH]; intros store sourceURL v Hhit.
  - split; [exact Hhit|intros ev []].
  - cbn [run_lookups].
    pose proof (getSourceMap_keeps env store k _ _ Hhit) as Hkeep.
    destruct (IH _ _ _ Hkeep) as [IHc IHe].
    destruct (run_lookups rest (after (getSourceMap env store k))) as [store' evs].
    cbn [fst snd] in *. split; [exact IHc|].
    intros ev Hin. apply in_app_or in Hin. destruct Hin as [Hin|Hin]; [|auto].
    destruct (decide (k = sourceURL)) as [->|Hne].
    + rewrite (getSourceMap_hit _ _ _ _ Hhit) in Hin. destruct Hin.
    + rewrite (getSourceMap_trace_url _ _ _ _ Hin). exact Hne.
Qed.

(** ** C2: negative entries *)

(** C2: when no map is available for a URL (unknown location, in particular
    a path under neither prefix, or a file that does not exist) and the
    cache holds no parsed map for it, [getSourceMap] returns none without
    error and the cache binds the URL to the negative entry afterwards; from
    then on, through any sequence of lookups under any routes and file
    system, the entry stays, every lookup of the URL returns none, and
    neither the resolver nor the reader nor the parser is called for that
    URL again. *)
Theorem C2_negative_entry_is_permanent env store sourceURL :
  no_map_available env store sourceURL ->
  (forall smap, cache store !! sourceURL <> Some (Some smap)) ->
  let r := getSourceMap env store sourceURL in
  value r = Ok None
  /\ cache (after r) !! sourceURL = Some None
  /\ forall calls env',
       let later := run_lookups calls (after r) in
       cache (fst later) !! sourceURL = Some None
       /\ (forall ev, In ev (snd later) -> event_url ev <> sourceURL)
       /\ getSourceMap env' (fst later) sourceURL = mkRet (fst later) [] (Ok None).
Proof.
  intros Hno Hpos. cbv zeta.
  assert (value (getSourceMap env store sourceURL) = Ok None) as Hval.
  { unfold getSourceMap.
    destruct (cache store !! sourceURL) as [[smap|]|] eqn:Hc.
    - exfalso. apply (Hpos smap). reflexivity.
    - reflexivity.
    - destruct Hno as [Hg|(loc & e & Hg & Hr & He)]; rewrite Hg; [reflexivity|].
      cbv zeta. rewrite Hr, He. reflexivity. }
  pose proof (getSourceMap_ok_cached _ _ _ _ Hval) as Hentry.
  split; [exact Hval|]. split; [exact Hentry|].
  intros calls env'.
  destruct (run_lookups_entry_stable calls _ _ _ Hentry) as [Hc He].
  split; [exact Hc|]. split; [exact He|].
  apply getSourceMap_hit, Hc.
Qed.

Lemma C2_negative_entry_is_permanent_witness :
  let r := getSourceMap Fixture.env Fixture.store "/public/build/none.js" in
  value r = Ok None
  /\ cache (after r) !! "/public/build/none.js" = Some None
  /\ forall calls env',
       let later := run_lookups calls (after r) in
       cache (fst later) !! "/public/build/none.js" = Some None
       /\ (forall ev, In ev (snd later) -> event_url ev <> "/public/build/none.js")
       /\ getSourceMap env' (fst later) "/public/build/none.js"
          = mkRet (fst later) [] (Ok None).
Proof.
  apply (C2_negative_entry_is_permanent Fixture.env Fixture.store "/public/build/none.js").
  - right.
    exists (Loc.mk "/usr/share/grafana/public" "build/none.js.map" ""),
           (ErrNotExist "/usr/share/grafana/public/build/none.js.map").
    repeat split; reflexivity.
  - intros smap. vm_compute. discriminate.
Defined.

(** A URL under neither prefix, on a new store: no reader call at all. *)
Example unknown_prefix_lookup :
  let r := getSourceMap Fixture.env Fixture.store "/other/x.js" in
  trace r = [EvGuess "/other/x.js"] /\ value r = Ok None
  /\ cache (after r) !! "/other/x.js" = Some None
  /\ trace (getSourceMap Fixture.env (after r) "/other/x.js") = [].
Proof. vm_compute. repeat split; reflexivity. Qed.

(** *** Stores that lived under one environment *)

Lemma guess_after env env' store k sourceURL :
  guessSourceMapLocation env (after (getSourceMap env' store k)) sourceURL
  = guessSourceMapLocation env store sourceURL.
Proof.
  unfold guessSourceMapLocation.
  rewrite (proj1 (getSourceMap_cfg env' store k)). reflexivity.
Qed.

Lemma reachable_loaded_from env store : reachable env store -> loaded_from env store.
Proof.
  induction 1 as [c read|store k Hreach IH].
  - intros sourceURL smap Hc. cbn in Hc. rewrite lookup_empty in Hc. discriminate.
  - intros sourceURL smap Hc. rewrite guess_after.
    rewrite (proj2 (getSourceMap_cfg env store k)).
    destruct (decide (sourceURL = k)) as [->|Hne].
    + revert Hc. unfold getSourceMap.
      destruct (cache store !! k) as [w|] eqn:Hk.
      * cbn [after]. intros Hc. apply IH. exact Hc.
      * destruct (guessSourceMapLocation env store k) as [[loc|]|e] eqn:Hg;
          cbn [after set_cache cache].
        -- destruct (readSourceMap store _ _ _) as [b|e] eqn:Hr.
           ++ destruct (sourcemap_Parse env _ b) as [c|e] eqn:Hp;
                cbn [after set_cache cache].
              ** rewrite lookup_insert_eq. intros [= <-]. eauto 8.
              ** congruence.
           ++ destruct (Os.IsNotExist e); cbn [after set_cache cache].
              ** rewrite lookup_insert_eq. discriminate.
              ** congruence.
        -- rewrite lookup_insert_eq. discriminate.
        -- congruence.
    + rewrite getSourceMap_other in Hc by exact Hne. apply IH. exact Hc.
Qed.

(** In a store that lived under one environment, a URL without available
    map has no parsed map in the cache. *)
Lemma reachable_no_positive env store sourceURL :
  reachable env store ->
  no_map_available env store sourceURL ->
  forall smap, cache store !! sourceURL <> Some (Some smap).
Proof.
  intros Hreach Hno smap Hc.
  destruct (reachable_loaded_from _ _ Hreach _ _ Hc) as (loc & b & c & Hg & Hr & _).
  destruct Hno as [Hg'|(loc' & e & Hg' & Hr' & _)]; congruence.
Qed.

(** ** C4: failures are not cached *)

(** C4: on a cache miss, a reader error other than "does not exist" and a
    parse failure are both returned to the caller as the error of the call,
    and the store is left exactly as it was, so the URL still has no entry,
    neither positive nor negative; the next lookup of the URL, as long as
    the resolver gives a location, calls the reader again and, when the read
    succeeds, the parser again. *)
Theorem C4_failure_leaves_no_entry env store sourceURL e :
  cache store !! sourceURL = None ->
  load_fails env store sourceURL e ->
  let r := getSourceMap env store sourceURL in
  value r = Err e
  /\ after r = store
  /\ cache (after r) !! sourceURL = None
  /\ forall env' loc',
       guessSourceMapLocation env' store sourceURL = Ok (Some loc') ->
       let dir := Loc.dir loc' in
       let path := normalizePath (Loc.path loc') in
       exists rest,
         trace (getSourceMap env' (after r) sourceURL)
         = EvGuess sourceURL :: EvRead sourceURL dir path :: rest
         /\ forall b, readSourceMap store (fs env') dir path = Ok b ->
                      rest = [EvParse sourceURL (sourceURL ++ ".map") b].
Proof.
  intros Hmiss (loc & Hg & Hfail). cbv zeta in *.
  assert (value (getSourceMap env store sourceURL) = Err e
          /\ after (getSourceMap env store sourceURL) = store) as [Hval Hafter].
  { unfold getSourceMap. rewrite Hmiss, Hg. cbv zeta.
    destruct Hfail as [[Hr He]|(b & Hr & Hp)]; rewrite Hr.
    - rewrite He. split; reflexivity.
    - rewrite Hp. split; reflexivity. }
  rewrite Hafter. repeat split; try assumption.
  intros env' loc' Hg'. unfold getSourceMap. rewrite Hmiss, Hg'. cbv zeta.
  destruct (readSourceMap store (fs env') _ _) as [b|e'].
  - destruct (sourcemap_Parse env' _ b); cbn [trace app]; eexists; split;
      try reflexivity; intros b' [= <-]; reflexivity.
  - destruct (Os.IsNotExist e'); cbn [trace]; eexists; split;
      try reflexivity; discriminate.
Qed.

(** A map file the process may not read: the call fails with the
    permission error and caches nothing. *)
Lemma C4_failure_leaves_no_entry_witness :
  let sourceURL := "/public/build/locked.js" in
  let r := getSourceMap Fixture.env Fixture.store sourceURL in
  value r = Err (ErrPermission "/usr/share/grafana/public/build/locked.js.map")
  /\ cache (after r) !! sourceURL = None.
Proof.
  cbv zeta.
  pose proof (C4_failure_leaves_no_entry Fixture.env Fixture.store
                "/public/build/locked.js"
                (ErrPermission "/usr/share/grafana/public/build/locked.js.map")) as H.
  cbv zeta in H.
  destruct H as (Hv & _ & Hc & _).
  - vm_compute. reflexivity.
  - exists (Loc.mk "/usr/share/grafana/public" "build/locked.js.map" "").
    split; [reflexivity|]. left. split; reflexivity.
  - split; assumption.
Defined.

Example parse_failure_is_retried :
  let sourceURL := "/public/build/broken.js" in
  let r := getSourceMap Fixture.env Fixture.store sourceURL in
  value r = Err (ErrParse "sourcemap: invalid format")
  /\ cache (after r) !! sourceURL = None
  /\ trace (getSourceMap Fixture.env (after r) sourceURL)
     = [EvGuess sourceURL;
        EvRead sourceURL "/usr/share/grafana/public" "build/broken.js.map";
        EvParse sourceURL "/public/build/broken.js.map" [Byte.x03]].
Proof. vm_compute. repeat split; reflexivity. Qed.

(** ** Facts about path elements *)

Module PathFacts.
Import Strings Filepath PathElems.

Lemma split_slash_nonempty s : split_slash s <> [].
Proof.
  destruct s as [|c s]; cbn; [discriminate|].
  destruct (Ascii.eqb c "/"); [discriminate|].
  destruct (split_slash s); discriminate.
Qed.

Lemma split_slash_cons c s :
  split_slash (String c s) =
  if Ascii.eqb c "/" then "" :: split_slash s
  else match split_slash s with
       | seg :: segs => String c seg :: segs
       | [] => [String c ""]
       end.
Proof. reflexivity. Qed.

Lemma split_slash_app a b :
  split_slash (a ++ "/" ++ b) = (split_slash a ++ split_slash b)%list.
Proof.
  induction a as [|c a IH].
  - reflexivity.
  - rewrite append_cons, !split_slash_cons, IH.
    destruct (Ascii.eqb c "/"); [reflexivity|].
    pose proof (split_slash_nonempty a).
    destruct (split_slash a); [congruence|reflexivity].
Qed.

Lemma split_slash_free s : Forall (fun e => slash_free e = true) (split_slash s).
Proof.
  induction s as [|c s IH].
  - repeat constructor.
  - rewrite split_slash_cons.
    destruct (Ascii.eqb c "/") eqn:Hc.
    + constructor; [reflexivity|exact IH].
    + destruct (split_slash s) as [|seg segs].
      * repeat constructor. cbn. rewrite Hc. reflexivity.
      * inversion IH as [|? ? Hseg Hsegs]; subst.
        constructor; [|exact Hsegs]. cbn. rewrite Hc. exact Hseg.
Qed.

Lemma split_slash_slash_free s : slash_free s = true -> split_slash s = [s].
Proof.
  induction s as [|c s IH]; [reflexivity|].
  cbn [slash_free]. intros [Hc Hs]%andb_prop.
  rewrite split_slash_cons.
  destruct (Ascii.eqb c "/"); [discriminate|].
  rewrite (IH Hs). reflexivity.
Qed.

Lemma is_real_slash_free e : is_real e = true -> slash_free e = true.
Proof. unfold is_real. intros [_ H]%andb_prop. exact H. Qed.

(** Splitting the join of real elements gives the elements back. *)
Lemma split_join_real els :
  els <> [] ->
  Forall (fun e => is_real e = true) els ->
  split_slash (join_slash els) = els.
Proof.
  induction els as [|e els IH]; [congruence|].
  intros _ Hall. inversion Hall as [|? ? He Hels]; subst.
  destruct els as [|e' els'].
  - cbn. apply split_slash_slash_free, is_real_slash_free, He.
  - change (join_slash (e :: e' :: els')) with (e ++ "/" ++ join_slash (e' :: els')).
    rewrite split_slash_app, IH by (congruence || assumption).
    rewrite (split_slash_slash_free e) by (apply is_real_slash_free, He).
    reflexivity.
Qed.

(** The scan of [Clean] pushes real elements and skips empty ones. *)
Lemma clean_step_real r out e :
  is_real e = true -> clean_step r out e = e :: out.
Proof.
  unfold is_real, clean_step.
  intros [[[H1 H2]%andb_prop H3]%andb_prop _]%andb_prop.
  apply negb_true_iff in H1, H2, H3. rewrite H1, H2, H3. reflexivity.
Qed.

Lemma fold_clean_real r els : forall out,
  Forall (fun e => is_real e = true) els ->
  fold_left (clean_step r) els out = (rev els ++ out)%list.
Proof.
  induction els as [|e els IH]; intros out Hall; [reflexivity|].
  inversion Hall as [|? ? He Hels]; subst.
  cbn [fold_left rev]. rewrite clean_step_real by exact He.
  rewrite IH by exact Hels. rewrite <- app_assoc. reflexivity.
Qed.

(** On a rooted path the scan keeps real elements only. *)
Lemma fold_clean_rooted_real els : forall out,
  Forall (fun e => slash_free e = true) els ->
  Forall (fun e => is_real e = true) out ->
  Forall (fun e => is_real e = true) (fold_left (clean_step true) els out).
Proof.
  induction els as [|e els IH]; intros out Hfree Hout; [exact Hout|].
  inversion Hfree as [|? ? He Hels]; subst.
  cbn [fold_left]. apply IH; [exact Hels|].
  unfold clean_step.
  destruct (String.eqb e "") eqn:E1; [exact Hout|].
  destruct (String.eqb e ".") eqn:E2; [exact Hout|].
  destruct (String.eqb e "..") eqn:E3.
  - destruct out as [|top below]; [constructor|].
    inversion Hout; subst.
    destruct (String.eqb top ".."); assumption.
  - constructor; [|exact Hout].
    unfold is_real. rewrite E1, E2, E3, He. reflexivity.
Qed.

Lemma clean_elems_rooted_real s :
  Forall (fun e => is_real e = true) (clean_elems true (split_slash s)).
Proof.
  unfold clean_elems. apply Forall_rev.
  apply fold_clean_rooted_real; [apply split_slash_free|constructor].
Qed.

Lemma rooted_slash s : rooted ("/" ++ s) = true.
Proof. unfold rooted, HasPrefix. rewrite append_cons. destruct s; reflexivity. Qed.


Lemma Clean_slash s :
  Clean ("/" ++ s) = "/" ++ join_slash (clean_elems true (split_slash ("/" ++ s))).
Proof. unfold Clean. rewrite rooted_slash. reflexivity. Qed.

(** The elements of a rooted, cleaned path. *)
Lemma split_rooted_render els :
  Forall (fun e => is_real e = true) els ->
  split_slash ("/" ++ join_slash els) = "" :: (if els is [] then [""] else els).
Proof.
  intros Hall. rewrite append_cons, split_slash_cons. cbn [Ascii.eqb Bool.eqb].
  rewrite append_nil. f_equal.
  destruct els as [|e els]; [reflexivity|].
  apply split_join_real; [discriminate|exact Hall].
Qed.

Lemma real_not_dotdot els :
  Forall (fun e => is_real e = true) els ->
  existsb (fun e => String.eqb e "..") els = false.
Proof.
  induction 1 as [|x xs Hx _ IH]; [reflexivity|].
  cbn [existsb]. rewrite IH, orb_false_r.
  unfold is_real in Hx.
  apply andb_prop in Hx as [[_ Hx]%andb_prop _].
  apply negb_true_iff in Hx. exact Hx.
Qed.

Lemma has_dotdot_rooted_render els :
  Forall (fun e => is_real e = true) els ->
  has_dotdot ("/" ++ join_slash els) = false.
Proof.
  intros Hall. unfold has_dotdot. rewrite split_rooted_render by exact Hall.
  destruct els as [|e els]; [reflexivity|].
  rewrite (existsb_app _ [""] (e :: els)), (real_not_dotdot _ Hall). reflexivity.
Qed.

(** Scanning a rooted, cleaned path appends its elements. *)
Lemma fold_clean_rooted_render r els out :
  Forall (fun e => is_real e = true) els ->
  fold_left (clean_step r) (split_slash ("/" ++ join_slash els)) out
  = (rev els ++ out)%list.
Proof.
  intros Hall. rewrite split_rooted_render by exact Hall.
  destruct els as [|e els]; [reflexivity|].
  change (fold_left (clean_step r) ("" :: e :: els) out)
    with (fold_left (clean_step r) (e :: els) out).
  apply fold_clean_real, Hall.
Qed.


End PathFacts.

(** The path handed to the reader is rooted and free of [..] whenever the
    relative path of the location begins with the separator. *)
Lemma normalizePath_rooted p :
  Filepath.rooted p = true ->
  Filepath.rooted (normalizePath p) = true
  /\ PathElems.has_dotdot (normalizePath p) = false.
Proof.
  intros Hr. unfold normalizePath.
  change (Strings.HasPrefix p "/") with (Filepath.rooted p). rewrite Hr.
  rewrite PathFacts.Clean_slash. split.
  - apply PathFacts.rooted_slash.
  - apply PathFacts.has_dotdot_rooted_render, PathFacts.clean_elems_rooted_real.
Qed.

(** ** C7: the path handed to the reader *)




(** The read of the escaping path of the counterexample stays in the
    static root all the same. *)
Example scoped_read_of_escaping_path :
  Http.Dir_fullName "/usr/share/grafana/public" "../etc/passwd.map"
  = "/usr/share/grafana/public/etc/passwd.map".
Proof. reflexivity. Qed.

(** ** C8: concurrent callers *)

Module ConcFacts.
Import Conc.


Lemma upd_same i p ts : upd i p ts i = p.
Proof. unfold upd. rewrite Nat.eqb_refl. reflexivity. Qed.

Lemma upd_other i j p ts : j <> i -> upd i p ts j = ts j.
Proof.
  intros Hne. unfold upd. destruct (Nat.eqb_spec j i); [contradiction|reflexivity].
Qed.










Section OneURL.
Variable env : Env.
Variable st0 : SourceMapStore.
Variable u : string.

(** The load of [u] does not fail: it succeeds, or the file does not exist,
    or the location is unknown, or the URL is malformed. *)
Hypothesis no_failure : forall e, ~ load_fails env st0 u e.









End OneURL.

End ConcFacts.


Lemma run_some env i rest s s' :
  Conc.step_thread env s i = Some s' ->
  Conc.run env (i :: rest) s = Conc.run env rest s'.
Proof. intros H. cbn [Conc.run]. rewrite H. reflexivity. Qed.

Lemma run_returned env i r n : forall s,
  Conc.threads s i = Conc.Returned r -> Conc.run env (repeat i n) s = s.
Proof.
  induction n as [|n IH]; intros s Hp; [reflexivity|].
  cbn [repeat Conc.run]. unfold Conc.step_thread. rewrite Hp. apply IH, Hp.
Qed.

Lemma run_from_unlock env i r n s :
  Conc.threads s i = Conc.AtUnlock r ->
  Conc.run env (repeat i (S n)) s
  = Conc.mkState (Conc.store s) false
      (Conc.upd i (Conc.Returned r) (Conc.threads s)) (Conc.log s).
Proof.
  intros Hp. cbn [repeat]. erewrite run_some.
  - apply (run_returned env i r). cbn [Conc.threads]. apply ConcFacts.upd_same.
  - unfold Conc.step_thread. rewrite Hp. reflexivity.
Qed.

Ltac solo_step tac :=
  erewrite run_some;
  [|unfold Conc.step_thread; cbn [Conc.threads Conc.store Conc.locked Conc.log];
    rewrite ?ConcFacts.upd_same; cbv zeta; tac; reflexivity].

Ltac solo_finish :=
  erewrite run_from_unlock by (cbn [Conc.threads]; apply ConcFacts.upd_same);
  cbn [Conc.threads Conc.store Conc.locked Conc.log after trace value];
  rewrite ConcFacts.upd_same, <- ?app_assoc, ?app_nil_r;
  repeat split; reflexivity.

(** A caller that runs alone, from [Lock] to [Unlock], does what
    [getSourceMap] does. *)
Lemma solo_call env s i sourceURL :
  Conc.locked s = false ->
  Conc.threads s i = Conc.AtLock sourceURL ->
  let r := getSourceMap env (Conc.store s) sourceURL in
  let s' := Conc.run env (repeat i 5) s in
  Conc.store s' = after r
  /\ Conc.log s' = (Conc.log s ++ trace r)%list
  /\ Conc.threads s' i = Conc.Returned (value r)
  /\ Conc.locked s' = false.
Proof.
  intros HL Hp. cbv zeta. unfold getSourceMap.
  change (repeat i 5) with (i :: i :: repeat i 3).
  solo_step ltac:(rewrite Hp, HL).
  destruct (cache (Conc.store s) !! sourceURL) as [v|] eqn:Hk.
  { solo_step ltac:(rewrite Hk). solo_finish. }
  destruct (guessSourceMapLocation env (Conc.store s) sourceURL) as [[loc|]|e] eqn:Hg;
    solo_step ltac:(rewrite Hk, Hg); [|solo_finish ..].
  change (repeat i 3) with (i :: repeat i 2). cbv zeta.
  destruct (readSourceMap (Conc.store s) (fs env) _ _) as [b|e] eqn:Hr.
  - solo_step ltac:(rewrite Hr).
    change (repeat i 2) with (i :: repeat i 1).
    destruct (sourcemap_Parse env _ b) as [c|e] eqn:Hparse;
      solo_step ltac:(rewrite Hparse); solo_finish.
  - destruct (Os.IsNotExist e) eqn:He; solo_step ltac:(rewrite Hr, He); solo_finish.
Qed.




(** * Further properties of the store *)

(** ** What one lookup does to the store and to the outside *)

(** X1: a lookup either returns an answer and leaves exactly that answer in
    the cache under the URL, everything else unchanged, or returns an error
    and leaves the store as it was, the URL still absent; this covers the
    malformed URL as well as read and parse failures. *)
Theorem lookup_caches_answer_or_leaves_store env store sourceURL :
  let r := getSourceMap env store sourceURL in
  (forall v, value r = Ok v ->
             cache (after r) = <[sourceURL := v]> (cache store)
             /\ cfg (after r) = cfg store
             /\ readSourceMap (after r) = readSourceMap store)
  /\ (forall e, value r = Err e ->
                after r = store /\ cache store !! sourceURL = None).
Proof.
  cbv zeta. unfold getSourceMap.
  destruct (cache store !! sourceURL) as [w|] eqn:Hc.
  - cbn [value after]. split; [|discriminate].
    intros v [= <-]. rewrite insert_id by exact Hc. repeat split; reflexivity.
  - destruct (guessSourceMapLocation env store sourceURL) as [[loc|]|e0]; cbv zeta.
    + destruct (readSourceMap store _ _ _) as [b|e0].
      * destruct (sourcemap_Parse env _ b) as [c|e0]; cbn [value after]; split;
          try discriminate.
        -- intros v [= <-]. repeat split; reflexivity.
        -- intros e _. split; reflexivity.
      * destruct (Os.IsNotExist e0); cbn [value after]; split; try discriminate.
        -- intros v [= <-]. repeat split; reflexivity.
        -- intros e _. split; reflexivity.
    + cbn [value after]. split; [|discriminate].
      intros v [= <-]. repeat split; reflexivity.
    + cbn [value after]. split; [discriminate|]. intros e _. split; reflexivity.
Qed.

Lemma lookup_caches_answer_or_leaves_store_witness :
  let r := getSourceMap Fixture.env Fixture.store "http://[::1" in
  value r = Err (ErrURL "not a bare absolute path")
  /\ after r = Fixture.store.
Proof.
  cbv zeta.
  destruct (lookup_caches_answer_or_leaves_store Fixture.env Fixture.store
              "http://[::1") as [_ Herr].
  split; [reflexivity|].
  apply (Herr (ErrURL "not a bare absolute path")). reflexivity.
Defined.

(** X2: the outside calls of one lookup are, in this order, at most one call
    of the resolver, at most one of the reader and at most one of the
    parser; there is none exactly on a cache hit; the reader is called only
    with a location the resolver gave, and the parser only with the bytes
    the reader returned, under the name of the URL followed by [.map]. *)
Theorem lookup_trace_shape env store sourceURL :
  let r := getSourceMap env store sourceURL in
  (trace r = [] /\ exists v, cache store !! sourceURL = Some v)
  \/ (cache store !! sourceURL = None
      /\ (trace r = [EvGuess sourceURL]
          \/ exists loc,
               guessSourceMapLocation env store sourceURL = Ok (Some loc)
               /\ let dir := Loc.dir loc in
                  let path := normalizePath (Loc.path loc) in
                  trace r = [EvGuess sourceURL; EvRead sourceURL dir path]
                  \/ exists b,
                       readSourceMap store (fs env) dir path = Ok b
                       /\ trace r = [EvGuess sourceURL; EvRead sourceURL dir path;
                                     EvParse sourceURL (sourceURL ++ ".map") b])).
Proof.
  cbv zeta. unfold getSourceMap.
  destruct (cache store !! sourceURL) as [w|] eqn:Hc; [left; eauto|].
  right. split; [reflexivity|].
  destruct (guessSourceMapLocation env store sourceURL) as [[loc|]|e0];
    [|left; reflexivity ..].
  right. exists loc. split; [reflexivity|]. cbv zeta.
  destruct (readSourceMap store _ _ _) as [b|e0] eqn:Hr.
  - right. exists b. split; [reflexivity|].
    destruct (sourcemap_Parse env _ b); reflexivity.
  - left. destruct (Os.IsNotExist e0); reflexivity.
Qed.

(** ** What sequences of lookups keep *)

Lemma run_lookups_cons env sourceURL rest store :
  run_lookups ((env, sourceURL) :: rest) store
  = (fst (run_lookups rest (after (getSourceMap env store sourceURL))),
     (trace (getSourceMap env store sourceURL)
      ++ snd (run_lookups rest (after (getSourceMap env store sourceURL))))%list).
Proof.
  cbn [run_lookups].
  destruct (run_lookups rest (after (getSourceMap env store sourceURL))).
  reflexivity.
Qed.

(** X3: through any sequence of lookups, under whatever environments, the
    configuration and the injected reader of the store stay the same, every
    entry present at the start is still there with the same value (the cache
    never evicts and never refreshes), a URL that is absent and not looked
    up stays absent, and every outside call is made for one of the URLs
    looked up. *)
Theorem lookups_frame calls : forall store,
  let later := run_lookups calls store in
  cfg (fst later) = cfg store
  /\ readSourceMap (fst later) = readSourceMap store
  /\ (forall k v, cache store !! k = Some v -> cache (fst later) !! k = Some v)
  /\ (forall k, cache store !! k = None -> ~ In k (map snd calls) ->
                cache (fst later) !! k = None)
  /\ (forall ev, In ev (snd later) -> In (event_url ev) (map snd calls)).
Proof.
  induction calls as [|[env u] rest IH]; intros store; cbv zeta.
  - cbn. repeat split; auto; contradiction.
  - rewrite run_lookups_cons. cbn [fst snd map].
    specialize (IH (after (getSourceMap env store u))). cbv zeta in IH.
    destruct IH as (Hcfg & Hread & Hkeep & Habsent & Hev).
    destruct (getSourceMap_cfg env store u) as [Hc1 Hr1].
    split; [congruence|]. split; [congruence|]. split; [|split].
    + intros k v Hk. apply Hkeep, getSourceMap_keeps, Hk.
    + intros k Hk Hnot. apply Habsent.
      * rewrite getSourceMap_other; [exact Hk|]. intros ->. apply Hnot. left. reflexivity.
      * intros Hin. apply Hnot. right. exact Hin.
    + intros ev Hin. apply in_app_or in Hin. destruct Hin as [Hin|Hin].
      * left. symmetry. apply (getSourceMap_trace_url _ _ _ _ Hin).
      * right. apply Hev, Hin.
Qed.

(** The resolver fails exactly when [url.Parse] does. *)
Lemma guess_error_iff env store sourceURL e :
  url_Parse env sourceURL = Err e
  <-> guessSourceMapLocation env store sourceURL = Err e.
Proof.
  unfold guessSourceMapLocation.
  destruct (url_Parse env sourceURL) as [u|e'].
  - split; [discriminate|].
    destruct (Strings.HasPrefix (Path u) "/public/build/"); [discriminate|].
    destruct (Strings.HasPrefix (Path u) "/public/plugins/"); discriminate.
  - split; intros [= ->]; reflexivity.
Qed.

(** ** When resolving a frame fails, and what a resolved frame holds *)

(** X4: resolving a frame fails with error [e] exactly when the frame's URL
    has no cache entry and either [url.Parse] rejects the URL with [e] or
    loading its map fails with [e] (a read error other than "does not
    exist", or a parse error); a cached URL never fails, and an unknown
    location or a missing file is not a failure. *)
Theorem resolve_fails_iff env store frame e :
  value (resolveSourceLocation env store frame) = Err e
  <-> cache store !! Filename frame = None
      /\ (url_Parse env (Filename frame) = Err e
          \/ load_fails env store (Filename frame) e).
Proof.
  rewrite resolve_unfold. cbv zeta. cbn [value].
  set (u := Filename frame).
  assert (value (getSourceMap env store u) = Err e
          <-> cache store !! u = None
              /\ (url_Parse env u = Err e \/ load_fails env store u e)) as Hget.
  { unfold getSourceMap, load_fails.
    destruct (cache store !! u) as [w|] eqn:Hc.
    { cbn [value]. split; [discriminate|]. intros [H _]. discriminate. }
    pose proof (guess_error_iff env store u) as Hurl.
    destruct (guessSourceMapLocation env store u) as [[loc|]|e0] eqn:Hg; cbv zeta.
    - destruct (readSourceMap store _ _ _) as [b|e0] eqn:Hr.
      + destruct (sourcemap_Parse env _ b) as [c|e0] eqn:Hp; cbn [value].
        * split; [discriminate|]. intros [_ [Hu|(loc' & [= <-] & Hf)]].
          -- apply Hurl in Hu. discriminate.
          -- cbv zeta in Hf. rewrite Hr in Hf.
             destruct Hf as [[Hf _]|(b' & [= <-] & Hf)]; congruence.
        * split.
          -- intros [= ->]. split; [reflexivity|]. right. exists loc.
             split; [reflexivity|]. cbv zeta. rewrite Hr. right. eauto.
          -- intros [_ [Hu|(loc' & [= <-] & Hf)]].
             ++ apply Hurl in Hu. discriminate.
             ++ cbv zeta in Hf. rewrite Hr in Hf.
                destruct Hf as [[Hf _]|(b' & [= <-] & Hf)]; congruence.
      + destruct (Os.IsNotExist e0) eqn:He; cbn [value].
        * split; [discriminate|]. intros [_ [Hu|(loc' & [= <-] & Hf)]].
          -- apply Hurl in Hu. discriminate.
          -- cbv zeta in Hf. rewrite Hr in Hf.
             destruct Hf as [[[= <-] Hf]|(b' & Hf & _)]; congruence.
        * split.
          -- intros [= ->]. split; [reflexivity|]. right. exists loc.
             split; [reflexivity|]. cbv zeta. rewrite Hr. left. split; [reflexivity|exact He].
          -- intros [_ [Hu|(loc' & [= <-] & Hf)]].
             ++ apply Hurl in Hu. discriminate.
             ++ cbv zeta in Hf. rewrite Hr in Hf.
                destruct Hf as [[[= <-] _]|(b' & Hf & _)]; [reflexivity|discriminate].
    - cbn [value]. split; [discriminate|].
      intros [_ [Hu|(loc' & Hf & _)]]; [apply Hurl in Hu|]; discriminate.
    - cbn [value]. split.
      + intros [= ->]. split; [reflexivity|]. left. apply Hurl. reflexivity.
      + intros [_ [Hu|(loc' & Hf & _)]]; [|discriminate].
        apply Hurl in Hu. congruence. }
  rewrite <- Hget.
  destruct (value (getSourceMap env store u)) as [[smap|]|e0];
    split; intros H; try discriminate; injection H as ->; reflexivity.
Qed.

(** X5: once a frame has been resolved without error, to a frame or to
    none, resolving it again gives the same answer whatever lookups were made
    in between and whatever the routes and the file system have become, and
    makes no outside call and no change to the store. *)
Theorem resolve_is_stable_after_success env env' store frame x calls :
  value (resolveSourceLocation env store frame) = Ok x ->
  let later := fst (run_lookups calls (after (resolveSourceLocation env store frame))) in
  resolveSourceLocation env' later frame = mkRet later [] (Ok x).
Proof.
  rewrite (resolve_unfold env). cbv zeta. cbn [after value].
  destruct (value (getSourceMap env store (Filename frame))) as [v|e] eqn:Hv;
    [|discriminate].
  pose proof (getSourceMap_ok_cached _ _ _ _ Hv) as Hc.
  destruct (run_lookups_entry_stable calls _ _ _ Hc) as [Hc' _].
  intros Hx. rewrite resolve_unfold. cbv zeta.
  rewrite (getSourceMap_hit env' _ _ _ Hc'). cbn [after trace value].
  destruct v; congruence.
Qed.

Lemma resolve_is_stable_after_success_witness :
  let frame := Fixture.frame_at "/public/build/app.js" 1 1 in
  let first := resolveSourceLocation Fixture.env Fixture.store frame in
  let later :=
    fst (run_lookups [(Fixture.env, "/public/build/broken.js");
                      (Fixture.env_with [], "/other/x.js")] (after first)) in
  resolveSourceLocation (Fixture.env_with []) later frame
  = mkRet later [] (Ok (Some (resolved_frame "src/app.ts" 10 2 "render" "core"))).
Proof.
  cbv zeta.
  apply (resolve_is_stable_after_success Fixture.env (Fixture.env_with [])
           Fixture.store (Fixture.frame_at "/public/build/app.js" 1 1)).
  vm_compute. reflexivity.
Defined.

(** X6: a resolved frame never has an empty function or an empty module:
    the function is the name from the map or ["?"], the module the plugin
    identifier or ["core"]. *)
Theorem resolved_frame_is_never_blank env store frame resolved :
  value (resolveSourceLocation env store frame) = Ok (Some resolved) ->
  Function resolved <> "" /\ Module_ resolved <> "".
Proof.
  intros H. destruct (resolve_some_inv _ _ _ _ H)
    as (smap & file & function & line & col & _ & _ & ->).
  cbn [resolved_frame Function Module_]. unfold shown_function, owning_module. split.
  - destruct (String.eqb_spec function ""); [discriminate|assumption].
  - destruct (String.eqb_spec (SMap.pluginID smap) ""); [discriminate|assumption].
Qed.

Lemma resolved_frame_is_never_blank_witness :
  Function (resolved_frame "src/app.ts" 10 2 "?" "core") <> ""
  /\ Module_ (resolved_frame "src/app.ts" 10 2 "?" "core") <> "".
Proof.
  apply (resolved_frame_is_never_blank Fixture.env Fixture.store
           (Fixture.frame_at "/public/build/bare.js" 1 1)).
  vm_compute. reflexivity.
Defined.

(** ** The location resolver *)

Lemma guessPluginRoute_unfold upath route rest :
  guessPluginRoute upath (route :: rest)
  = if route_matches upath route then Some (route_location upath route)
    else guessPluginRoute upath rest.
Proof. reflexivity. Qed.

(** The first-match rule of the loop over the routes. *)
Lemma guessPluginRoute_spec upath routes :
  match guessPluginRoute upath routes with
  | Some loc =>
      exists pre route post,
        routes = (pre ++ route :: post)%list
        /\ Forall (fun r => route_matches upath r = false) pre
        /\ route_matches upath route = true
        /\ loc = route_location upath route
  | None => Forall (fun r => route_matches upath r = false) routes
  end.
Proof.
  induction routes as [|route rest IH]; [constructor|].
  rewrite guessPluginRoute_unfold.
  destruct (route_matches upath route) eqn:Hm.
  - exists [], route, rest. repeat split; [constructor|exact Hm].
  - destruct (guessPluginRoute upath rest) as [loc|].
    + destruct IH as (pre & r & post & -> & Hpre & Hr & ->).
      exists (route :: pre), r, post. repeat split; [constructor|]; assumption.
    + constructor; assumption.
Qed.

(** X7: the loop over the plugin routes returns the location of the first
    route, in registry order, whose prefix matches the path: every route
    before it does not match; and it returns nothing exactly when no route
    matches. *)
Theorem plugin_route_first_match_wins upath routes :
  (forall loc,
      guessPluginRoute upath routes = Some loc
      <-> exists pre route post,
            routes = (pre ++ route :: post)%list
            /\ Forall (fun r => route_matches upath r = false) pre
            /\ route_matches upath route = true
            /\ loc = route_location upath route)
  /\ (guessPluginRoute upath routes = None
      <-> Forall (fun r => route_matches upath r = false) routes).
Proof.
  assert (forall pre route post,
             Forall (fun r => route_matches upath r = false) pre ->
             route_matches upath route = true ->
             guessPluginRoute upath (pre ++ route :: post)
             = Some (route_location upath route)) as Hskip.
  { intros pre route post Hpre Hm.
    induction Hpre as [|r pre Hr _ IH]; cbn [app];
      rewrite guessPluginRoute_unfold.
    - rewrite Hm. reflexivity.
    - rewrite Hr. exact IH. }
  pose proof (guessPluginRoute_spec upath routes) as Hspec.
  split.
  - intros loc. split.
    + intros Hg. rewrite Hg in Hspec. exact Hspec.
    + intros (pre & route & post & -> & Hpre & Hm & ->). apply Hskip; assumption.
  - split.
    + intros Hg. rewrite Hg in Hspec. exact Hspec.
    + intros Hall. destruct (guessPluginRoute upath routes) as [loc|]; [|reflexivity].
      destruct Hspec as (pre & route & post & -> & _ & Hm & _).
      apply Forall_app in Hall as [_ Hall]. inversion Hall; congruence.
Qed.

(** Where a location can come from. *)
Lemma guess_location_inv env store sourceURL loc :
  guessSourceMapLocation env store sourceURL = Ok (Some loc) ->
  exists u,
    url_Parse env sourceURL = Ok u
    /\ (exists base, Loc.path loc = base ++ ".map")
    /\ ((Strings.HasPrefix (Path u) "/public/build/" = true
         /\ Loc.dir loc = StaticRootPath (cfg store)
         /\ Loc.pluginID loc = "")
        \/ (Strings.HasPrefix (Path u) "/public/build/" = false
            /\ Strings.HasPrefix (Path u) "/public/plugins/" = true
            /\ exists route,
                 In route (StaticRoutes env)
                 /\ route_matches (Path u) route = true
                 /\ loc = route_location (Path u) route)).
Proof.
  unfold guessSourceMapLocation.
  destruct (url_Parse env sourceURL) as [u|e]; [|discriminate].
  intros H. exists u. split; [reflexivity|].
  destruct (Strings.HasPrefix (Path u) "/public/build/") eqn:Hb.
  - injection H as <-. split; [eexists; reflexivity|]. left. repeat split.
  - destruct (Strings.HasPrefix (Path u) "/public/plugins/") eqn:Hp; [|discriminate].
    injection H as H.
    pose proof (guessPluginRoute_spec (Path u) (StaticRoutes env)) as Hspec.
    rewrite H in Hspec. destruct Hspec as (pre & route & post & Hroutes & _ & Hm & ->).
    split; [eexists; reflexivity|]. right. repeat split.
    exists route. split; [|split; [exact Hm|reflexivity]].
    rewrite Hroutes. apply in_or_app. right. left. reflexivity.
Qed.

(** X8: every location the resolver returns belongs to one of the two
    conventions: either the path of the URL is under [/public/build/], and
    the directory is the configured static root with no plugin; or it is
    under [/public/plugins/] and not under [/public/build/], and directory
    and plugin identifier are those of a registered route whose prefix
    matches.  In both cases the relative path ends in [.map]. *)
Theorem guess_location_is_sound env store sourceURL loc :
  guessSourceMapLocation env store sourceURL = Ok (Some loc) ->
  exists u,
    url_Parse env sourceURL = Ok u
    /\ (exists base, Loc.path loc = base ++ ".map")
    /\ ((Strings.HasPrefix (Path u) "/public/build/" = true
         /\ Loc.dir loc = StaticRootPath (cfg store)
         /\ Loc.pluginID loc = "")
        \/ (Strings.HasPrefix (Path u) "/public/build/" = false
            /\ Strings.HasPrefix (Path u) "/public/plugins/" = true
            /\ exists route,
                 In route (StaticRoutes env)
                 /\ route_matches (Path u) route = true
                 /\ Loc.dir loc = Directory route
                 /\ Loc.pluginID loc = PluginId route)).
Proof.
  intros H. destruct (guess_location_inv _ _ _ _ H) as (u & Hu & Hmap & Hcase).
  exists u. split; [exact Hu|]. split; [exact Hmap|].
  destruct Hcase as [Hb|(Hb & Hp & route & Hin & Hm & ->)]; [left; exact Hb|].
  right. repeat split; try assumption. exists route. repeat split; assumption.
Qed.

Lemma guess_location_is_sound_witness :
  exists u,
    url_Parse Fixture.env "/public/plugins/acme-panel/module.js" = Ok u
    /\ (exists base, "-panel/module.js.map" = base ++ ".map")
    /\ ((Strings.HasPrefix (Path u) "/public/build/" = true
         /\ "/var/lib/grafana/plugins/acme" = "/usr/share/grafana/public"
         /\ "acme" = "")
        \/ (Strings.HasPrefix (Path u) "/public/build/" = false
            /\ Strings.HasPrefix (Path u) "/public/plugins/" = true
            /\ exists route,
                 In route Fixture.routes
                 /\ route_matches (Path u) route = true
                 /\ "/var/lib/grafana/plugins/acme" = Directory route
                 /\ "acme" = PluginId route)).
Proof.
  apply (guess_location_is_sound Fixture.env Fixture.store
           "/public/plugins/acme-panel/module.js"
           (Loc.mk "/var/lib/grafana/plugins/acme" "-panel/module.js.map" "acme")).
  reflexivity.
Defined.

(** ** Stores that lived under one environment *)

(** X9: in a store that went from [NewSourceMapStore] through lookups under
    one environment, every parsed map in the cache is the one that environment
    yields for its URL: the resolver gives a location for the URL, the reader
    returns bytes for that location's directory and normalized path, the
    parser accepts them under the name of the URL followed by [.map], the
    cached consumer is the parser's result and the cached plugin identifier
    is the location's. *)
Theorem cached_map_provenance env store sourceURL smap :
  reachable env store ->
  cache store !! sourceURL = Some (Some smap) ->
  exists loc b,
    guessSourceMapLocation env store sourceURL = Ok (Some loc)
    /\ readSourceMap store (fs env) (Loc.dir loc) (normalizePath (Loc.path loc)) = Ok b
    /\ sourcemap_Parse env (sourceURL ++ ".map") b = Ok (SMap.consumer smap)
    /\ SMap.pluginID smap = Loc.pluginID loc.
Proof.
  intros Hreach Hc.
  destruct (reachable_loaded_from _ _ Hreach _ _ Hc) as (loc & b & c & Hg & Hr & Hp & ->).
  exists loc, b. repeat split; assumption.
Qed.

Lemma cached_map_provenance_witness :
  let store := after (getSourceMap Fixture.env Fixture.store "/public/build/app.js") in
  exists loc b,
    guessSourceMapLocation Fixture.env store "/public/build/app.js" = Ok (Some loc)
    /\ readSourceMap store (fs Fixture.env) (Loc.dir loc) (normalizePath (Loc.path loc))
       = Ok b
    /\ sourcemap_Parse Fixture.env ("/public/build/app.js" ++ ".map") b
       = Ok (Fixture.consumer_of "render")
    /\ "" = Loc.pluginID loc.
Proof.
  cbv zeta.
  apply (cached_map_provenance Fixture.env _ "/public/build/app.js"
           (SMap.mk (Fixture.consumer_of "render") "")).
  - apply reach_lookup. apply reach_new.
  - vm_compute. reflexivity.
Defined.

(** X10: in such a store, resolving a frame under the same environment can
    only attribute it to ["core"] or to the identifier of a route registered
    in [plugins.StaticRoutes]. *)
Theorem module_is_core_or_registered env store frame resolved :
  reachable env store ->
  value (resolveSourceLocation env store frame) = Ok (Some resolved) ->
  Module_ resolved = "core"
  \/ exists route, In route (StaticRoutes env) /\ Module_ resolved = PluginId route.
Proof.
  intros Hreach H.
  destruct (resolve_some_inv _ _ _ _ H)
    as (smap & file & function & line & col & Hc & _ & ->).
  cbn [resolved_frame Module_]. unfold owning_module.
  destruct (String.eqb (SMap.pluginID smap) "") eqn:Hid; [left; reflexivity|]. right.
  rewrite resolve_unfold in Hc. cbv zeta in Hc. cbn [after] in Hc.
  pose proof (reach_lookup env store (Filename frame) Hreach) as Hreach'.
  destruct (reachable_loaded_from _ _ Hreach' _ _ Hc) as (loc & b & c & Hg & _ & _ & ->).
  cbn [SMap.pluginID] in *.
  destruct (guess_location_inv _ _ _ _ Hg)
    as (u & _ & _ & [(_ & _ & Hcore)|(_ & _ & route & Hin & _ & ->)]).
  - rewrite Hcore in Hid. discriminate.
  - exists route. split; [exact Hin|reflexivity].
Qed.

Lemma module_is_core_or_registered_witness :
  "acme-panel" = "core"
  \/ exists route,
       In route (rev Fixture.routes) /\ "acme-panel" = PluginId route.
Proof.
  apply (module_is_core_or_registered (Fixture.env_with (rev Fixture.routes))
           Fixture.store
           (Fixture.frame_at "/public/plugins/acme-panel/module.js" 1 1)
           (resolved_frame "src/app.ts" 10 2 "render" "acme-panel")).
  - apply reach_new.
  - vm_compute. reflexivity.
Defined.

(** ** The normalization of the relative path *)

Module CleanFacts.
Import Strings Filepath PathElems PathFacts.

Lemma all_dotdot_stacked t :
  forallb (fun e => String.eqb e "..") t = true -> well_stacked t = true.
Proof.
  destruct t as [|x t]; [reflexivity|]. cbn [forallb well_stacked].
  intros [Hx Ht]%andb_prop. rewrite Hx. exact Ht.
Qed.

Lemma all_dotdot_filter t :
  forallb (fun e => String.eqb e "..") t = true -> List.filter not_dotdot t = [].
Proof.
  induction t as [|x t IH]; [reflexivity|]. cbn [forallb List.filter].
  intros [Hx Ht]%andb_prop. unfold not_dotdot at 1. rewrite Hx. cbn [negb].
  apply IH, Ht.
Qed.

Lemma is_real_not_dotdot x : is_real x = true -> String.eqb x ".." = false.
Proof.
  unfold is_real. intros [[_ H]%andb_prop _]%andb_prop.
  apply negb_true_iff in H. exact H.
Qed.

Lemma dotdot_slash_free x : String.eqb x ".." = true -> slash_free x = true.
Proof. intros ->%String.eqb_eq. reflexivity. Qed.

Lemma well_stacked_free out :
  well_stacked out = true -> Forall (fun e => slash_free e = true) out.
Proof.
  induction out as [|x t IH]; [constructor|]. cbn [well_stacked].
  destruct (String.eqb x "..") eqn:Hx.
  - intros Ht. constructor; [apply dotdot_slash_free, Hx|].
    apply IH, all_dotdot_stacked, Ht.
  - intros [Hr Ht]%andb_prop. constructor; [apply is_real_slash_free, Hr|apply IH, Ht].
Qed.

Lemma well_stacked_nonempty out :
  well_stacked out = true -> Forall (fun e => String.eqb e "" = false) out.
Proof.
  induction out as [|x t IH]; [constructor|]. cbn [well_stacked].
  destruct (String.eqb x "..") eqn:Hx.
  - intros Ht. constructor.
    + apply String.eqb_eq in Hx. subst x. reflexivity.
    + apply IH, all_dotdot_stacked, Ht.
  - intros [Hr Ht]%andb_prop. constructor; [|apply IH, Ht].
    unfold is_real in Hr.
    apply andb_prop in Hr as [[[Hr _]%andb_prop _]%andb_prop _].
    apply negb_true_iff in Hr. exact Hr.
Qed.

Lemma filter_not_dotdot_cons x t :
  List.filter not_dotdot (x :: t)
  = if String.eqb x ".." then List.filter not_dotdot t
    else x :: List.filter not_dotdot t.
Proof.
  cbn [List.filter]. unfold not_dotdot at 1.
  destruct (String.eqb x ".."); reflexivity.
Qed.

(** One step of the relative scan keeps the shape of the output, and the
    rooted scan follows it with the [..] elements left out. *)
Lemma clean_step_stacked out e :
  slash_free e = true ->
  well_stacked out = true ->
  well_stacked (clean_step false out e) = true
  /\ clean_step true (List.filter not_dotdot out) e
     = List.filter not_dotdot (clean_step false out e).
Proof.
  intros He Hout. unfold clean_step.
  destruct (String.eqb e "") eqn:E1; [split; [exact Hout|reflexivity]|].
  destruct (String.eqb e ".") eqn:E2; [split; [exact Hout|reflexivity]|].
  destruct (String.eqb e "..") eqn:E3.
  - destruct out as [|top below].
    + rewrite filter_not_dotdot_cons, E3. cbn [well_stacked forallb List.filter].
      rewrite E3. split; reflexivity.
    + rewrite filter_not_dotdot_cons. cbn [well_stacked] in Hout.
      destruct (String.eqb top "..") eqn:Htop.
      * rewrite !filter_not_dotdot_cons, E3, Htop.
        rewrite (all_dotdot_filter _ Hout).
        cbn [well_stacked forallb]. rewrite E3, Htop, Hout. split; reflexivity.
      * apply andb_prop in Hout as [_ Hbelow]. rewrite Htop.
        split; [exact Hbelow|reflexivity].
  - rewrite filter_not_dotdot_cons, E3. cbn [well_stacked]. rewrite E3.
    split; [|reflexivity].
    unfold is_real. rewrite E1, E2, E3, He, Hout. reflexivity.
Qed.

Lemma fold_clean_stacked elems : forall out,
  Forall (fun e => slash_free e = true) elems ->
  well_stacked out = true ->
  well_stacked (fold_left (clean_step false) elems out) = true
  /\ fold_left (clean_step true) elems (List.filter not_dotdot out)
     = List.filter not_dotdot (fold_left (clean_step false) elems out).
Proof.
  induction elems as [|e elems IH]; intros out Hfree Hout.
  - split; [exact Hout|reflexivity].
  - inversion Hfree as [|? ? He Hrest]; subst. cbn [fold_left].
    destruct (clean_step_stacked out e He Hout) as [Hs ->].
    apply IH; assumption.
Qed.

(** The rooted scan of a path is its relative scan without the [..]. *)
Lemma rooted_scan_filter p :
  well_stacked (relative_scan p) = true
  /\ rooted_scan p = List.filter not_dotdot (relative_scan p).
Proof.
  unfold rooted_scan, relative_scan.
  apply (fold_clean_stacked (split_slash p) []); [apply split_slash_free|reflexivity].
Qed.

(** Scanning a well-stacked output again, first element first. *)
Lemma scan_of_stacked out :
  well_stacked out = true ->
  fold_left (clean_step false) (rev out) [] = out
  /\ fold_left (clean_step true) (rev out) [] = List.filter not_dotdot out.
Proof.
  induction out as [|x t IH]; [split; reflexivity|].
  cbn [well_stacked rev]. rewrite !fold_left_app. cbn [fold_left List.filter].
  unfold not_dotdot at 1.
  destruct (String.eqb x "..") eqn:Hx.
  - intros Ht. destruct (IH (all_dotdot_stacked _ Ht)) as [-> ->].
    rewrite (all_dotdot_filter _ Ht). cbn [negb].
    apply String.eqb_eq in Hx. subst x. split; [|reflexivity].
    destruct t as [|top below]; [reflexivity|].
    cbn [forallb] in Ht. apply andb_prop in Ht as [Htop _].
    unfold clean_step. cbn. rewrite Htop. reflexivity.
  - intros [Hr Ht]%andb_prop. destruct (IH Ht) as [-> ->].
    rewrite !clean_step_real by exact Hr. split; reflexivity.
Qed.

Lemma split_join_free els :
  els <> [] ->
  Forall (fun e => slash_free e = true) els ->
  split_slash (join_slash els) = els.
Proof.
  induction els as [|e els IH]; [congruence|].
  intros _ Hall. inversion Hall as [|? ? He Hels]; subst.
  destruct els as [|e' els'].
  - cbn. apply split_slash_slash_free, He.
  - change (join_slash (e :: e' :: els')) with (e ++ "/" ++ join_slash (e' :: els')).
    rewrite split_slash_app, IH by (congruence || assumption).
    rewrite (split_slash_slash_free e) by exact He. reflexivity.
Qed.

Lemma split_slash_rooted x : split_slash ("/" ++ x) = "" :: split_slash x.
Proof. rewrite append_cons, split_slash_cons, append_nil. reflexivity. Qed.

Lemma rooted_scan_slash x : rooted_scan ("/" ++ x) = rooted_scan x.
Proof. unfold rooted_scan. rewrite split_slash_rooted. reflexivity. Qed.

Lemma Clean_rooted_scan x : Clean ("/" ++ x) = "/" ++ join_slash (rev (rooted_scan x)).
Proof.
  rewrite Clean_slash. unfold clean_elems.
  change (fold_left (clean_step true) (split_slash ("/" ++ x)) [])
    with (rooted_scan ("/" ++ x)).
  rewrite rooted_scan_slash. reflexivity.
Qed.

Lemma Clean_relative p :
  rooted p = false -> Clean p = render false (rev (relative_scan p)).
Proof. intros Hr. unfold Clean. rewrite Hr. reflexivity. Qed.

Lemma rooted_scan_real x : Forall (fun e => is_real e = true) (rev (rooted_scan x)).
Proof.
  apply Forall_rev. unfold rooted_scan.
  apply fold_clean_rooted_real; [apply split_slash_free|constructor].
Qed.

(** The scans of a cleaned relative path. *)
Lemma scans_of_render out :
  well_stacked out = true ->
  relative_scan (render false (rev out)) = out
  /\ rooted_scan (render false (rev out)) = List.filter not_dotdot out.
Proof.
  intros Hout. unfold render.
  destruct (rev out) as [|x l] eqn:Hrev.
  - assert (out = []) as -> by (apply (f_equal (@rev string)) in Hrev;
                                  rewrite rev_involutive in Hrev; exact Hrev).
    split; reflexivity.
  - unfold relative_scan, rooted_scan. rewrite split_join_free.
    + rewrite <- Hrev. apply scan_of_stacked, Hout.
    + discriminate.
    + rewrite <- Hrev. apply Forall_rev, well_stacked_free, Hout.
Qed.

Lemma rooted_cons_false c s : Ascii.eqb c "/" = false -> rooted (String c s) = false.
Proof.
  intros Hc. unfold rooted, HasPrefix. cbn [String.prefix].
  destruct (ascii_dec "/" c) as [<-|]; [discriminate|reflexivity].
Qed.

Lemma rooted_join_false x l :
  String.eqb x "" = false -> slash_free x = true -> rooted (join_slash (x :: l)) = false.
Proof.
  intros Hne Hfree. destruct x as [|c x']; [discriminate|].
  cbn [slash_free] in Hfree. apply andb_prop in Hfree as [Hc _].
  apply negb_true_iff in Hc.
  destruct l as [|y l]; cbn [join_slash]; [|rewrite append_cons];
    apply rooted_cons_false, Hc.
Qed.

Lemma rooted_render_false out :
  well_stacked out = true -> rooted (render false (rev out)) = false.
Proof.
  intros Hout. unfold render. destruct (rev out) as [|x l] eqn:Hrev; [reflexivity|].
  pose proof (Forall_rev (well_stacked_free _ Hout)) as Hfree.
  pose proof (Forall_rev (well_stacked_nonempty _ Hout)) as Hne.
  rewrite Hrev in Hfree, Hne. inversion Hfree; inversion Hne; subst.
  apply rooted_join_false; assumption.
Qed.

(** The rooted scan does not tell a path from its normalized form. *)
Lemma rooted_scan_normalizePath p : rooted_scan (normalizePath p) = rooted_scan p.
Proof.
  unfold normalizePath. change (HasPrefix p "/") with (rooted p).
  destruct (rooted p) eqn:Hr.
  - rewrite Clean_rooted_scan.
    unfold rooted_scan at 1.
    rewrite fold_clean_rooted_render by apply rooted_scan_real.
    rewrite rev_involutive, app_nil_r. reflexivity.
  - rewrite (Clean_relative p Hr).
    destruct (rooted_scan_filter p) as [Hs ->].
    apply (scans_of_render _ Hs).
Qed.

(** The two forms a normalized path has. *)
Lemma normalizePath_form p :
  (rooted p = true
   /\ normalizePath p = "/" ++ join_slash (rev (rooted_scan p)))
  \/ (rooted p = false
      /\ well_stacked (relative_scan p) = true
      /\ normalizePath p = render false (rev (relative_scan p))).
Proof.
  unfold normalizePath. change (HasPrefix p "/") with (rooted p).
  destruct (rooted p) eqn:Hr.
  - left. split; [reflexivity|]. apply Clean_rooted_scan.
  - right. split; [reflexivity|]. split; [apply rooted_scan_filter|].
    apply Clean_relative, Hr.
Qed.

Lemma normalizePath_rooted_render els :
  Forall (fun e => is_real e = true) els ->
  normalizePath ("/" ++ join_slash els) = "/" ++ join_slash els.
Proof.
  intros Hall. unfold normalizePath. change (HasPrefix ?x "/") with (rooted x).
  rewrite rooted_slash, Clean_rooted_scan. do 2 f_equal.
  unfold rooted_scan. rewrite fold_clean_rooted_render by exact Hall.
  rewrite app_nil_r. apply rev_involutive.
Qed.

Lemma normalizePath_relative_render out :
  well_stacked out = true ->
  normalizePath (render false (rev out)) = render false (rev out).
Proof.
  intros Hout. unfold normalizePath. change (HasPrefix ?x "/") with (rooted x).
  rewrite (rooted_render_false _ Hout).
  rewrite Clean_relative by apply (rooted_render_false _ Hout).
  rewrite (proj1 (scans_of_render _ Hout)). reflexivity.
Qed.

End CleanFacts.

(** X11: normalizing twice is normalizing once: the path computed by lines
    102-106 is a fixed point of that computation, for every relative path a
    location can carry. *)
Theorem normalizePath_is_idempotent p :
  normalizePath (normalizePath p) = normalizePath p.
Proof.
  destruct (CleanFacts.normalizePath_form p) as [[_ ->]|(_ & Hs & ->)].
  - (* rooted: the path is [/] followed by real elements *)
    apply CleanFacts.normalizePath_rooted_render, CleanFacts.rooted_scan_real.
  - (* relative: [..] elements first, then real elements, or [.] *)
    apply CleanFacts.normalizePath_relative_render, Hs.
Qed.

(** X12: the normalization does not change which file [ReadSourceMapFromFs]
    opens: for every directory and every relative path, reading the
    normalized path and reading the path as the resolver gave it open the
    same file; whatever [..] elements the normalization leaves in a relative
    path are dropped by the reader's own rooted cleaning. *)
Theorem default_reader_ignores_normalization fsys dir p :
  ReadSourceMapFromFs fsys dir (normalizePath p) = ReadSourceMapFromFs fsys dir p.
Proof.
  unfold ReadSourceMapFromFs, Http.Dir_fullName. do 3 f_equal.
  rewrite !CleanFacts.Clean_rooted_scan, CleanFacts.rooted_scan_normalizePath.
  reflexivity.
Qed.

(** ** Locations whose path needs no normalization *)

Module SafePaths.
Import Strings Filepath PathElems PathFacts CleanFacts.

Lemma string_app_assoc (a b c : string) : (a ++ b) ++ c = a ++ (b ++ c).
Proof.
  induction a as [|x a IH]; [rewrite !append_nil; reflexivity|].
  rewrite !append_cons, IH. reflexivity.
Qed.

Lemma join_slash_cons a rest :
  rest <> [] -> join_slash (a :: rest) = a ++ "/" ++ join_slash rest.
Proof. destruct rest; [congruence|reflexivity]. Qed.

(** Appending to a joined path appends to its last element. *)
Lemma join_slash_snoc l x sfx :
  join_slash (l ++ [x]) ++ sfx = join_slash (l ++ [x ++ sfx]).
Proof.
  induction l as [|a l IH]; [reflexivity|].
  cbn [app]. rewrite !join_slash_cons by (destruct l; discriminate).
  rewrite !string_app_assoc, IH. reflexivity.
Qed.

Lemma slash_free_app a b : slash_free (a ++ b) = slash_free a && slash_free b.
Proof.
  induction a as [|x a IH]; [rewrite append_nil; reflexivity|].
  rewrite append_cons. cbn [slash_free]. rewrite IH. apply andb_assoc.
Qed.

Lemma string_length_app (a b : string) :
  String.length (a ++ b) = String.length a + String.length b.
Proof.
  induction a as [|x a IH]; [rewrite append_nil; reflexivity|].
  rewrite append_cons. cbn [String.length]. rewrite IH. reflexivity.
Qed.

Lemma eqb_short_false (x t : string) :
  String.length t < 4 -> String.eqb (x ++ ".map") t = false.
Proof.
  intros Hlen. apply String.eqb_neq. intros Heq.
  apply (f_equal String.length) in Heq. rewrite string_length_app in Heq.
  cbn [String.length] in Heq. lia.
Qed.

Lemma is_real_map_suffix x : is_real x = true -> is_real (x ++ ".map") = true.
Proof.
  intros H4%is_real_slash_free. unfold is_real.
  rewrite slash_free_app, H4, !eqb_short_false by (cbn; lia). reflexivity.
Qed.

Lemma all_real_stacked out :
  Forall (fun e => is_real e = true) out -> well_stacked out = true.
Proof.
  induction 1 as [|x t Hx _ IH]; [reflexivity|]. cbn [well_stacked].
  rewrite (is_real_not_dotdot _ Hx), Hx, IH. reflexivity.
Qed.

(** A path made of real elements is its own normalization. *)
Lemma real_path_is_normal els :
  els <> [] ->
  Forall (fun e => is_real e = true) els ->
  normalizePath (join_slash els) = join_slash els
  /\ rooted (join_slash els) = false
  /\ has_dotdot (join_slash els) = false.
Proof.
  intros Hne Hall.
  assert (well_stacked (rev els) = true) as Hs
      by (apply all_real_stacked, Forall_rev, Hall).
  assert (join_slash els = render false (rev (rev els))) as Hrender.
  { rewrite rev_involutive. unfold render. destruct els; [congruence|reflexivity]. }
  split; [|split].
  - rewrite Hrender. apply normalizePath_relative_render, Hs.
  - rewrite Hrender. apply rooted_render_false, Hs.
  - unfold has_dotdot. rewrite split_join_real by assumption.
    apply real_not_dotdot, Hall.
Qed.

(** Without [..] among the elements the relative scan only pushes. *)
Lemma fold_relative_pushes elems : forall out,
  Forall (fun e => slash_free e = true) elems ->
  existsb (fun e => String.eqb e "..") elems = false ->
  exists new,
    fold_left (clean_step false) elems out = (new ++ out)%list
    /\ Forall (fun e => is_real e = true) new.
Proof.
  induction elems as [|e elems IH]; intros out Hfree Hdd.
  - exists []. split; [reflexivity|constructor].
  - inversion Hfree as [|? ? He Hrest]; subst.
    cbn [existsb] in Hdd. apply orb_false_elim in Hdd as [E3 Hdd].
    cbn [fold_left]. unfold clean_step at 2. rewrite E3.
    destruct (String.eqb e "") eqn:E1; [apply IH; assumption|].
    destruct (String.eqb e ".") eqn:E2; [apply IH; assumption|].
    destruct (IH (e :: out) Hrest Hdd) as (new & -> & Hnew).
    exists (new ++ [e])%list. split; [rewrite <- app_assoc; reflexivity|].
    apply Forall_app. split; [exact Hnew|]. repeat constructor.
    unfold is_real. rewrite E1, E2, E3, He. reflexivity.
Qed.

(** The relative path of a build asset without [..] elements. *)
Lemma build_path_elems rest :
  has_dotdot rest = false ->
  exists els,
    els <> []
    /\ Forall (fun e => is_real e = true) els
    /\ Join ["build"; rest] ++ ".map" = join_slash els
    /\ HasPrefix (join_slash els) "build" = true.
Proof.
  intros Hdd.
  change (Join ["build"; rest]) with (Clean ("build" ++ "/" ++ rest)).
  assert (rooted ("build" ++ "/" ++ rest) = false) as Hr
      by (rewrite append_cons; apply rooted_cons_false; reflexivity).
  rewrite (Clean_relative _ Hr). unfold relative_scan.
  rewrite split_slash_app, fold_left_app.
  change (fold_left (clean_step false) (split_slash "build") []) with ["build"].
  destruct (fold_relative_pushes (split_slash rest) ["build"]
              (split_slash_free rest) Hdd) as (new & -> & Hnew).
  rewrite rev_app_distr. cbn [rev app].
  pose proof (Forall_rev Hnew) as Hrev.
  destruct (rev new) as [|y l] eqn:Hy using rev_ind.
  - exists ["build.map"]. repeat split; [discriminate|repeat constructor].
  - clear IHl. apply Forall_app in Hrev as [Hl Hy'].
    inversion Hy' as [|? ? Hyr _]; subst.
    exists ("build" :: l ++ [(y ++ ".map")%string])%list.
    split; [discriminate|]. split; [|split].
    + constructor; [reflexivity|]. apply Forall_app. split; [exact Hl|].
      repeat constructor. apply is_real_map_suffix, Hyr.
    + unfold render.
      change ("build" :: l ++ [y])%list with (("build" :: l) ++ [y])%list.
      change ("build" :: l ++ [(y ++ ".map")%string])%list
        with (("build" :: l) ++ [(y ++ ".map")%string])%list.
      apply join_slash_snoc.
    + rewrite join_slash_cons by (destruct l; discriminate).
      apply HasPrefix_app.
Qed.

End SafePaths.

(** X13: for a URL under [/public/build/] whose remainder has no [..]
    element, the relative path of the location begins with [build], is not
    rooted, has no [..] element, and is left as it is by the normalization:
    the reader is called with exactly the path the resolver built, inside
    the static root. *)
Theorem build_location_without_dotdot env store sourceURL u rest :
  url_Parse env sourceURL = Ok u ->
  Path u = "/public/build/" ++ rest ->
  PathElems.has_dotdot rest = false ->
  exists loc,
    guessSourceMapLocation env store sourceURL = Ok (Some loc)
    /\ Loc.dir loc = StaticRootPath (cfg store)
    /\ Strings.HasPrefix (Loc.path loc) "build" = true
    /\ normalizePath (Loc.path loc) = Loc.path loc
    /\ Filepath.rooted (Loc.path loc) = false
    /\ PathElems.has_dotdot (Loc.path loc) = false.
Proof.
  intros Hu Hpath Hdd.
  destruct (SafePaths.build_path_elems rest Hdd) as (els & Hne & Hall & Hjoin & Hpre).
  destruct (SafePaths.real_path_is_normal els Hne Hall) as (Hnorm & Hroot & Hno).
  eexists. split.
  - unfold guessSourceMapLocation. rewrite Hu, Hpath, HasPrefix_app.
    rewrite (slice_from_app "/public/build/" rest). reflexivity.
  - cbn [Loc.dir Loc.path]. rewrite Hjoin. repeat split; assumption.
Qed.

Lemma build_location_without_dotdot_witness :
  exists loc,
    guessSourceMapLocation Fixture.env Fixture.store "/public/build/moo/./foo.js"
    = Ok (Some loc)
    /\ Loc.dir loc = "/usr/share/grafana/public"
    /\ Strings.HasPrefix (Loc.path loc) "build" = true
    /\ normalizePath (Loc.path loc) = Loc.path loc
    /\ Filepath.rooted (Loc.path loc) = false
    /\ PathElems.has_dotdot (Loc.path loc) = false.
Proof.
  apply (build_location_without_dotdot Fixture.env Fixture.store
           "/public/build/moo/./foo.js"
           {| Scheme := ""; Host := ""; Path := "/public/build/moo/./foo.js";
              RawQuery := ""; Fragment := "" |} "moo/./foo.js");
    reflexivity.
Defined.

Lemma guessPluginRoute_skip upath pre route post :
  Forall (fun r => route_matches upath r = false) pre ->
  route_matches upath route = true ->
  guessPluginRoute upath (pre ++ route :: post) = Some (route_location upath route).
Proof.
  intros Hpre Hm.
  induction Hpre as [|r pre Hr _ IH]; cbn [app]; rewrite guessPluginRoute_unfold.
  - rewrite Hm. reflexivity.
  - rewrite Hr. exact IH.
Qed.

(** X14: for a plugin asset addressed as [/public/plugins/<id>/<tail>],
    where [<id>] is the identifier of the first matching route and joining
    it to the prefix leaves it as it is, the location is that route's
    directory with relative path [/<tail>.map] and plugin [<id>], and the
    path handed to the reader is rooted and has no [..] element, whatever
    [<tail>] contains. *)
Theorem plugin_location_at_separator env store sourceURL u pre route post tail :
  url_Parse env sourceURL = Ok u ->
  StaticRoutes env = (pre ++ route :: post)%list ->
  Forall (fun r => route_matches (Path u) r = false) pre ->
  Filepath.Join ["/public/plugins/"; PluginId route]
  = "/public/plugins/" ++ PluginId route ->
  Path u = "/public/plugins/" ++ PluginId route ++ "/" ++ tail ->
  guessSourceMapLocation env store sourceURL
  = Ok (Some (Loc.mk (Directory route) ("/" ++ tail ++ ".map") (PluginId route)))
  /\ Filepath.rooted (normalizePath ("/" ++ tail ++ ".map")) = true
  /\ PathElems.has_dotdot (normalizePath ("/" ++ tail ++ ".map")) = false.
Proof.
  intros Hu Hroutes Hpre HJ Hpath. split.
  - unfold guessSourceMapLocation. rewrite Hu, Hroutes.
    assert (route_matches (Path u) route = true) as Hm.
    { unfold route_matches. rewrite HJ, Hpath.
      change ("/public/plugins/" ++ PluginId route ++ "/" ++ tail)
        with (("/public/plugins/" ++ PluginId route) ++ "/" ++ tail).
      apply HasPrefix_app. }
    rewrite (guessPluginRoute_skip _ _ _ _ Hpre Hm).
    unfold route_location. rewrite HJ, Hpath.
    change ("/public/plugins/" ++ PluginId route ++ "/" ++ tail)
      with (("/public/plugins/" ++ PluginId route) ++ "/" ++ tail).
    rewrite slice_from_app.
    change ((("/public/plugins/" ++ PluginId route) ++ "/" ++ tail))
      with ("/public/plugins/" ++ (PluginId route ++ "/" ++ tail)).
    change (Strings.HasPrefix ("/public/plugins/" ++ PluginId route ++ "/" ++ tail)
              "/public/build/") with false.
    rewrite HasPrefix_app. reflexivity.
  - apply normalizePath_rooted. apply PathFacts.rooted_slash.
Qed.

Lemma plugin_location_at_separator_witness :
  guessSourceMapLocation (Fixture.env_with (rev Fixture.routes)) Fixture.store
    "/public/plugins/acme-panel/../../../etc/passwd"
  = Ok (Some (Loc.mk "/var/lib/grafana/plugins/acme-panel"
                ("/" ++ "../../../etc/passwd" ++ ".map") "acme-panel"))
  /\ Filepath.rooted (normalizePath ("/" ++ "../../../etc/passwd" ++ ".map")) = true
  /\ PathElems.has_dotdot (normalizePath ("/" ++ "../../../etc/passwd" ++ ".map"))
     = false.
Proof.
  apply (plugin_location_at_separator (Fixture.env_with (rev Fixture.routes))
           Fixture.store "/public/plugins/acme-panel/../../../etc/passwd"
           {| Scheme := ""; Host := "";
              Path := "/public/plugins/acme-panel/../../../etc/passwd";
              RawQuery := ""; Fragment := "" |}
           [] {| Directory := "/var/lib/grafana/plugins/acme-panel";
                 PluginId := "acme-panel" |}
           [ {| Directory := "/var/lib/grafana/plugins/acme"; PluginId := "acme" |} ]
           "../../../etc/passwd");
    try reflexivity.
  constructor.
Defined.

(** ** Concurrent runs are sequential runs *)

Module SerialFacts.
Import Conc.

Lemma run_lookups_app c1 : forall c2 store,
  run_lookups (c1 ++ c2) store
  = (fst (run_lookups c2 (fst (run_lookups c1 store))),
     (snd (run_lookups c1 store)
      ++ snd (run_lookups c2 (fst (run_lookups c1 store))))%list).
Proof.
  induction c1 as [|[env u] c1 IH]; intros c2 store.
  - cbn [app run_lookups fst snd]. destruct (run_lookups c2 store); reflexivity.
  - cbn [app]. rewrite !run_lookups_cons, IH. cbn [fst snd].
    rewrite app_assoc. reflexivity.
Qed.

Section OneRun.
Variable env : Env.
Variable urls : nat -> string.

Lemma serial_state_snoc done h st0 :
  serial_state env urls (done ++ [h]) st0
  = (after (getSourceMap env (fst (serial_state env urls done st0)) (urls h)),
     (snd (serial_state env urls done st0)
      ++ trace (getSourceMap env (fst (serial_state env urls done st0)) (urls h)))%list).
Proof.
  unfold serial_state, calls_under. rewrite !map_app, run_lookups_app.
  cbn [map]. rewrite run_lookups_cons. cbn [run_lookups fst snd].
  rewrite app_nil_r. reflexivity.
Qed.

Lemma serial_results_snoc done h : forall st0,
  serial_results env urls (done ++ [h]) st0
  = (serial_results env urls done st0
     ++ [(h, value (getSourceMap env (fst (serial_state env urls done st0)) (urls h)))])%list.
Proof.
  induction done as [|i done IH]; intros st0; [reflexivity|].
  cbn [app serial_results]. cbv zeta. rewrite IH. cbn [app]. do 3 f_equal.
  unfold serial_state, calls_under. cbn [map]. rewrite run_lookups_cons. reflexivity.
Qed.

Lemma serial_results_ids done : forall st0 i r,
  In (i, r) (serial_results env urls done st0) -> In i done.
Proof.
  induction done as [|j done IH]; intros st0 i r; [intros []|].
  cbn [serial_results]. cbv zeta. intros [[= <- _]|Hin]; [left; reflexivity|].
  right. apply (IH _ _ _ Hin).
Qed.

Lemma serial_results_has done : forall st0 i,
  In i done -> exists r, In (i, r) (serial_results env urls done st0).
Proof.
  induction done as [|j done IH]; intros st0 i; [intros []|].
  cbn [serial_results]. cbv zeta. intros [->|Hin].
  - eexists. left. reflexivity.
  - destruct (IH (after (getSourceMap env st0 (urls j))) i Hin) as [r Hr].
    exists r. right. exact Hr.
Qed.

Variable st0 : SourceMapStore.

Lemma serial_init : serial_inv env st0 urls [] (init st0 urls).
Proof.
  split; [constructor|]. split; [intros j k [= <-]; reflexivity|]. split.
  - intros i r. cbn. split; [discriminate|intros []].
  - cbn. repeat split; reflexivity.
Qed.

(** A caller inside the critical section is the one the invariant tracks. *)
Lemma serial_holder done s i :
  serial_inv env st0 urls done s ->
  in_cs (threads s i) = true ->
  locked s = true
  /\ ~ In i done
  /\ (forall j, j <> i -> in_cs (threads s j) = false)
  /\ holder_at env urls i
       (fst (serial_state env urls done st0)) (snd (serial_state env urls done st0))
       (threads s i) (store s) (log s).
Proof.
  intros (_ & _ & _ & HI) Hcs. cbv zeta in HI. destruct (locked s).
  - destruct HI as (h & Hnot & Hothers & Hat).
    destruct (Nat.eq_dec i h) as [->|Hne].
    + repeat split; assumption.
    + rewrite (Hothers i Hne) in Hcs. discriminate.
  - destruct HI as [Hnone _]. rewrite Hnone in Hcs. discriminate.
Qed.

(** The holder moves on inside the critical section. *)
Lemma serial_at done s i st' p evs :
  serial_inv env st0 urls done s ->
  locked s = true ->
  ~ In i done ->
  in_cs p = true ->
  (forall j, j <> i -> in_cs (threads s j) = false) ->
  holder_at env urls i
    (fst (serial_state env urls done st0)) (snd (serial_state env urls done st0))
    p st' (log s ++ evs) ->
  serial_inv env st0 urls done
    (mkState st' (locked s) (upd i p (threads s)) (log s ++ evs)).
Proof.
  intros (Hnd & Hurl & Hret & _) HL Hnot Hp Hothers Hat.
  split; [exact Hnd|]. cbn [threads locked store log]. split; [|split].
  - intros j k. destruct (Nat.eq_dec j i) as [->|Hj].
    + rewrite ConcFacts.upd_same. intros ->. discriminate.
    + rewrite ConcFacts.upd_other by exact Hj. apply Hurl.
  - intros j r. destruct (Nat.eq_dec j i) as [->|Hj].
    + rewrite ConcFacts.upd_same. split.
      * intros ->. discriminate.
      * intros Hin. exfalso. apply Hnot. apply (serial_results_ids _ _ _ _ Hin).
    + rewrite ConcFacts.upd_other by exact Hj. apply Hret.
  - cbv zeta. rewrite HL. exists i. split; [exact Hnot|]. split.
    + intros j Hj. rewrite ConcFacts.upd_other by exact Hj. apply Hothers, Hj.
    + rewrite ConcFacts.upd_same. exact Hat.
Qed.

Ltac finish_call H1 H2 H3 H4 :=
  cbn [holder_at]; cbv zeta; unfold getSourceMap;
  rewrite ?H1, ?H2; cbv zeta; rewrite ?H3, ?H4;
  cbn [after trace value app]; rewrite <- ?app_assoc, ?app_nil_r;
  repeat split; reflexivity.

(** Every step of every caller keeps the sequential reading. *)
Lemma serial_step done s i s' :
  serial_inv env st0 urls done s ->
  step_thread env s i = Some s' ->
  exists done', serial_inv env st0 urls done' s'.
Proof.
  intros HInv Hstep. unfold step_thread in Hstep.
  destruct (threads s i) as [k|k|k loc|k loc b|ret|ret] eqn:Hp.
  - (* Lock *)
    destruct (locked s) eqn:HL; [discriminate|]. injection Hstep as <-.
    exists done. destruct HInv as (Hnd & Hurl & Hret & HI).
    cbv zeta in HI. rewrite HL in HI. destruct HI as (Hnone & Hst & Hlog).
    assert (~ In i done) as Hnot.
    { intros Hin. destruct (serial_results_has done st0 i Hin) as [r Hr].
      apply Hret in Hr. congruence. }
    split; [exact Hnd|]. cbn [threads locked store log]. split; [|split].
    + intros j k'. destruct (Nat.eq_dec j i) as [->|Hj].
      * rewrite ConcFacts.upd_same. discriminate.
      * rewrite ConcFacts.upd_other by exact Hj. apply Hurl.
    + intros j r. destruct (Nat.eq_dec j i) as [->|Hj].
      * rewrite ConcFacts.upd_same. split; [discriminate|].
        intros Hin. exfalso. apply Hnot. apply (serial_results_ids _ _ _ _ Hin).
      * rewrite ConcFacts.upd_other by exact Hj. apply Hret.
    + cbv zeta. exists i. split; [exact Hnot|]. split.
      * intros j Hj. rewrite ConcFacts.upd_other by exact Hj. apply Hnone.
      * rewrite ConcFacts.upd_same. cbn [holder_at].
        repeat split; [apply (Hurl i k Hp)|assumption ..].
  - (* lookup and resolver *)
    destruct (serial_holder done s i HInv) as (HL & Hnot & Hothers & Hat);
      [rewrite Hp; reflexivity|].
    rewrite Hp in Hat. cbn [holder_at] in Hat. destruct Hat as (-> & Hst & Hlog).
    exists done. rewrite Hst in Hstep.
    destruct (cache (fst (serial_state env urls done st0)) !! urls i) as [v|] eqn:Hk.
    + injection Hstep as <-. apply serial_at; try assumption; [reflexivity|].
      rewrite Hlog. finish_call Hk Hk Hk Hk.
    + destruct (guessSourceMapLocation env _ (urls i)) as [[loc|]|e] eqn:Hg;
        injection Hstep as <-; apply serial_at; try assumption; try reflexivity;
        rewrite Hlog; finish_call Hk Hg Hk Hk.
  - (* reader *)
    destruct (serial_holder done s i HInv) as (HL & Hnot & Hothers & Hat);
      [rewrite Hp; reflexivity|].
    rewrite Hp in Hat. cbn [holder_at] in Hat.
    destruct Hat as (-> & Hst & Hlog & Hk & Hg).
    exists done. cbv zeta in Hstep. rewrite Hst in Hstep.
    destruct (readSourceMap _ (fs env) _ _) as [b|e] eqn:Hr.
    + injection Hstep as <-. apply serial_at; try assumption; [reflexivity|].
      rewrite Hlog, <- app_assoc. cbn [holder_at app]. repeat split; assumption.
    + destruct (Os.IsNotExist e) eqn:He; injection Hstep as <-;
        apply serial_at; try assumption; try reflexivity;
        rewrite Hlog; finish_call Hk Hg Hr He.
  - (* parser *)
    destruct (serial_holder done s i HInv) as (HL & Hnot & Hothers & Hat);
      [rewrite Hp; reflexivity|].
    rewrite Hp in Hat. cbn [holder_at] in Hat. cbv zeta in Hat.
    destruct Hat as (-> & Hst & Hlog & Hk & Hg & Hr).
    exists done. cbv zeta in Hstep. rewrite Hst in Hstep.
    destruct (sourcemap_Parse env _ b) as [c|e] eqn:Hparse; injection Hstep as <-;
      apply serial_at; try assumption; try reflexivity;
      rewrite Hlog; finish_call Hk Hg Hr Hparse.
  - (* Unlock *)
    destruct (serial_holder done s i HInv) as (HL & Hnot & Hothers & Hat);
      [rewrite Hp; reflexivity|].
    rewrite Hp in Hat. cbn [holder_at] in Hat. cbv zeta in Hat.
    destruct Hat as (Hst & Hlog & ->).
    destruct HInv as (Hnd & Hurl & Hret & _).
    injection Hstep as <-. exists (done ++ [i])%list.
    split; [|cbn [threads locked store log]; split; [|split]].
    + apply NoDup_app. split; [exact Hnd|]. split; [|apply NoDup_singleton].
      intros x Hx%list_elem_of_In Hin%list_elem_of_In.
      destruct Hin as [<-|[]]. apply Hnot, Hx.
    + intros j k. destruct (Nat.eq_dec j i) as [->|Hj].
      * rewrite ConcFacts.upd_same. discriminate.
      * rewrite ConcFacts.upd_other by exact Hj. apply Hurl.
    + intros j r. rewrite serial_results_snoc, in_app_iff.
      destruct (Nat.eq_dec j i) as [->|Hj].
      * rewrite ConcFacts.upd_same. split.
        -- intros [= <-]. right. left. reflexivity.
        -- intros [Hin|[[= <-]|[]]]; [|reflexivity].
           exfalso. apply Hnot. apply (serial_results_ids _ _ _ _ Hin).
      * rewrite ConcFacts.upd_other by exact Hj. rewrite Hret. split.
        -- intros Hin. left. exact Hin.
        -- intros [Hin|[[= <- _]|[]]]; [exact Hin|congruence].
    + cbv zeta. rewrite serial_state_snoc. cbn [fst snd]. split; [|split; assumption].
      intros j. destruct (Nat.eq_dec j i) as [->|Hj].
      * rewrite ConcFacts.upd_same. reflexivity.
      * rewrite ConcFacts.upd_other by exact Hj. apply Hothers, Hj.
  - discriminate.
Qed.

Lemma serial_run sched : forall done s,
  serial_inv env st0 urls done s ->
  exists done', serial_inv env st0 urls done' (run env sched s).
Proof.
  induction sched as [|i rest IH]; intros done s HInv; [eauto|].
  cbn [run]. destruct (step_thread env s i) as [s'|] eqn:Hstep; [|eauto].
  destruct (serial_step done s i s' HInv Hstep) as [done' HInv']. eauto.
Qed.

End OneRun.

End SerialFacts.



(** A caller inside the critical section can always take its next step. *)
Lemma step_in_cs env s j :
  Conc.in_cs (Conc.threads s j) = true ->
  exists s', Conc.step_thread env s j = Some s'.
Proof.
  unfold Conc.step_thread.
  destruct (Conc.threads s j) as [k|k|k loc|k loc b|ret|ret]; try discriminate;
    intros _; cbv zeta.
  - destruct (cache (Conc.store s) !! k); [eauto|].
    destruct (guessSourceMapLocation env (Conc.store s) k) as [[loc|]|e]; eauto.
  - destruct (readSourceMap (Conc.store s) (fs env) _ _) as [b|e]; [eauto|].
    destruct (Os.IsNotExist e); eauto.
  - destruct (sourcemap_Parse env _ b); eauto.
  - eauto.
Qed.

(** X16: the callers never deadlock: in every state a schedule can lead to,
    as long as some caller has not returned, some caller can take a step;
    when the mutex is free it is that caller itself, and when the mutex is
    taken it is the holder, which is inside the critical section: no return
    path of [getSourceMap] leaves the mutex locked. *)
Theorem callers_never_deadlock env st0 urls sched i :
  let s := Conc.run env sched (Conc.init st0 urls) in
  (forall r, Conc.threads s i <> Conc.Returned r) ->
  exists j s',
    Conc.step_thread env s j = Some s'
    /\ (Conc.locked s = false -> j = i)
    /\ (Conc.locked s = true -> Conc.in_cs (Conc.threads s j) = true).
Proof.
  cbv zeta. intros Hrun.
  destruct (SerialFacts.serial_run env urls st0 sched [] _
              (SerialFacts.serial_init env urls st0))
    as (done & _ & _ & _ & HI).
  cbv zeta in HI.
  set (s := Conc.run env sched (Conc.init st0 urls)) in *.
  destruct (Conc.locked s) eqn:HL.
  - destruct HI as (h & _ & _ & Hat).
    assert (Conc.in_cs (Conc.threads s h) = true) as Hcs.
    { destruct (Conc.threads s h); try reflexivity; destruct Hat. }
    destruct (step_in_cs env s h Hcs) as [s' Hs'].
    exists h, s'. split; [exact Hs'|]. split; [discriminate|]. intros _. exact Hcs.
  - destruct HI as (Hnone & _ & _). specialize (Hnone i).
    destruct (Conc.threads s i) as [k|k|k loc|k loc b|ret|ret] eqn:Hp;
      try discriminate.
    + exists i. eexists. split; [|split; [reflexivity|discriminate]].
      unfold Conc.step_thread. rewrite Hp, HL. reflexivity.
    + exfalso. apply (Hrun ret). reflexivity.
Qed.

Lemma callers_never_deadlock_witness :
  let s := Conc.run Fixture.env [0; 1; 0]
             (Conc.init Fixture.store (fun _ => "/public/build/app.js")) in
  exists j s',
    Conc.step_thread Fixture.env s j = Some s'
    /\ (Conc.locked s = false -> j = 1)
    /\ (Conc.locked s = true -> Conc.in_cs (Conc.threads s j) = true).
Proof.
  cbv zeta.
  apply (callers_never_deadlock Fixture.env Fixture.store
           (fun _ => "/public/build/app.js") [0; 1; 0] 1).
  intros r. vm_compute. discriminate.
Defined.

(** X17: in a store that went from [NewSourceMapStore] through lookups under
    one environment, every negative entry stands for a URL without available
    map: the resolver knows no location for it, or the reader reports that
    the file at its location does not exist; a URL whose load failed with an
    error never has an entry. *)
Theorem negative_entry_provenance env store sourceURL :
  reachable env store ->
  cache store !! sourceURL = Some None ->
  no_map_available env store sourceURL
  /\ forall e, ~ load_fails env store sourceURL e.
Proof.
  intros Hreach Hc.
  assert (no_map_available env store sourceURL) as Hno.
  { revert Hc. induction Hreach as [c read|store k Hreach IH].
    - cbn. rewrite lookup_empty. discriminate.
    - unfold no_map_available. rewrite guess_after.
      rewrite (proj2 (getSourceMap_cfg env store k)).
      destruct (decide (sourceURL = k)) as [->|Hne].
      + unfold getSourceMap.
        destruct (cache store !! k) as [w|] eqn:Hk;
          [cbn [after]; rewrite Hk; exact IH|].
        destruct (guessSourceMapLocation env store k) as [[loc|]|e] eqn:Hg;
          cbn [after set_cache cache]; cbv zeta.
        * destruct (readSourceMap store _ _ _) as [b|e] eqn:Hr.
          -- destruct (sourcemap_Parse env _ b) as [c|e] eqn:Hp;
               cbn [after set_cache cache].
             ++ rewrite lookup_insert_eq. discriminate.
             ++ congruence.
          -- destruct (Os.IsNotExist e) eqn:He; cbn [after set_cache cache].
             ++ intros _. right. exists loc, e. repeat split; assumption.
             ++ congruence.
        * intros _. left. reflexivity.
        * congruence.
      + rewrite getSourceMap_other by exact Hne. exact IH. }
  split; [exact Hno|].
  intros e (loc & Hg & Hfail). cbv zeta in Hfail.
  destruct Hno as [Hg'|(loc' & e' & Hg' & Hr' & He')]; [congruence|].
  rewrite Hg in Hg'. injection Hg' as <-.
  destruct Hfail as [[Hr He]|(b & Hr & _)]; congruence.
Qed.

Lemma negative_entry_provenance_witness :
  let store := after (getSourceMap Fixture.env Fixture.store "/public/build/none.js") in
  no_map_available Fixture.env store "/public/build/none.js"
  /\ forall e, ~ load_fails Fixture.env store "/public/build/none.js" e.
Proof.
  cbv zeta.
  apply (negative_entry_provenance Fixture.env _ "/public/build/none.js").
  - apply reach_lookup. apply reach_new.
  - vm_compute. reflexivity.
Defined.
